(** * flask-blog: entry persistence, tag index and search index

    A shallow embedding of [app.py]: the [Entry.save] write path
    (slug derivation, the row write, [BlogEntryTag] rows, the full-text
    document, the [Tag] counters), the transaction wrapper of
    [_create_or_edit], and the read paths [public], [drafts], [search]
    and [blogs_by_tag].

    The program is Python 2 code ([urllib.urlencode]) and the text it
    handles is the unicode text Flask decodes.  A text is modelled as
    the string of its UTF-8 bytes: equality, concatenation, substring
    and binary order of texts are those of their bytes, an ASCII
    character is one byte below 128, and every byte of another
    character is 128 or more.  [\w] without the UNICODE flag is
    [[a-zA-Z0-9_]]; [lower], [split] and [strip] follow the Unicode
    tables of Python 2.7. *)

From Stdlib Require Import String Ascii List ZArith Lia Bool.
From Stdlib Require Import Sorted Permutation.
Import ListNotations.
Local Open Scope string_scope.
Local Open Scope Z_scope.

(** ** Text primitives *)

Module Text.

(** [\w] of [re] (no flags): letters, digits and the underscore. *)
Definition is_word (c : ascii) : bool :=
  let n := N_of_ascii c in
  (((48 <=? n) && (n <=? 57)) || ((65 <=? n) && (n <=? 90)) ||
   ((97 <=? n) && (n <=? 122)) || (n =? 95))%N.

(** The blank characters of [unicode.split()] and [unicode.strip()]:
    U+0009-000D, U+001C-0020, U+0085, U+00A0, U+1680, U+180E (a space
    separator in the Unicode 5.2 tables of Python 2.7), U+2000-200A,
    U+2028, U+2029, U+202F, U+205F and U+3000.  When [s] begins with
    one of them, [blank_at s] is the number of bytes that follow the
    first byte of its encoding. *)
Definition blank_at (s : string) : option nat :=
  match s with
  | EmptyString => None
  | String a r =>
      let x := N_of_ascii a in
      if (((9 <=? x) && (x <=? 13)) || ((28 <=? x) && (x <=? 32)))%N
      then Some 0%nat
      else if (x =? 194)%N then
        match r with
        | String b _ =>
            let y := N_of_ascii b in
            if ((y =? 133) || (y =? 160))%N then Some 1%nat else None
        | EmptyString => None
        end
      else if ((x =? 225) || (x =? 226) || (x =? 227))%N then
        match r with
        | String b (String c _) =>
            let y := N_of_ascii b in
            let z := N_of_ascii c in
            if (((x =? 225) && (y =? 154) && (z =? 128)) ||
                ((x =? 225) && (y =? 160) && (z =? 142)) ||
                ((x =? 226) && (y =? 128) &&
                 (((128 <=? z) && (z <=? 138)) || (z =? 168) ||
                  (z =? 169) || (z =? 175))) ||
                ((x =? 226) && (y =? 129) && (z =? 159)) ||
                ((x =? 227) && (y =? 128) && (z =? 128)))%N
            then Some 2%nat else None
        | _ => None
        end
      else None
  end.

Definition is_hyphen (c : ascii) : bool := Ascii.eqb c "-"%char.

Definition lower_char (c : ascii) : ascii :=
  let n := N_of_ascii c in
  if ((65 <=? n) && (n <=? 90))%N then ascii_of_N (n + 32) else c.

(** The two characters outside ASCII whose lower case is an ASCII
    letter: U+0130 gives [i] and U+212A gives [k].  When [s] begins
    with one of them the result is that letter and the number of bytes
    that follow the first byte of the encoding. *)
Definition lowers_to_ascii (s : string) : option (ascii * nat) :=
  match s with
  | EmptyString => None
  | String a r =>
      let x := N_of_ascii a in
      if (x =? 196)%N then
        match r with
        | String b _ =>
            if (N_of_ascii b =? 176)%N then Some ("i"%char, 1%nat) else None
        | EmptyString => None
        end
      else if (x =? 226)%N then
        match r with
        | String b (String c _) =>
            if ((N_of_ascii b =? 132) && (N_of_ascii c =? 170))%N
            then Some ("k"%char, 2%nat) else None
        | _ => None
        end
      else None
  end.

(** [s.lower()], character by character as Python 2 does it; [skip]
    counts the bytes left of a character already dealt with.  A
    character outside ASCII other than the two above is left as it is:
    its lower case is outside ASCII as well, and the one use of
    [lower], in [slugify], turns both into the hyphen. *)
Fixpoint lower_from (skip : nat) (s : string) : string :=
  match s with
  | EmptyString => EmptyString
  | String c r =>
      match skip with
      | S k => lower_from k r
      | O =>
          match lowers_to_ascii s with
          | Some (d, k) => String d (lower_from k r)
          | None => String (lower_char c) (lower_from 0 r)
          end
      end
  end.

Definition lower (s : string) : string := lower_from 0 s.

(** [re.sub('[^\w]+', '-', s)]: the flag says whether the scan is inside
    a run of non-word characters, whose hyphen was already emitted. *)
Fixpoint sub_runs (in_run : bool) (s : string) : string :=
  match s with
  | EmptyString => EmptyString
  | String c r =>
      if is_word c then String c (sub_runs false r)
      else if in_run then sub_runs true r
      else String "-"%char (sub_runs true r)
  end.

Definition re_sub_nonword (s : string) : string := sub_runs false s.

Fixpoint lstrip (p : ascii -> bool) (s : string) : string :=
  match s with
  | EmptyString => EmptyString
  | String c r => if p c then lstrip p r else s
  end.

Fixpoint rstrip (p : ascii -> bool) (s : string) : string :=
  match s with
  | EmptyString => EmptyString
  | String c r =>
      match rstrip p r with
      | EmptyString => if p c then EmptyString else String c EmptyString
      | r' => String c r'
      end
  end.

(** [s.strip(chars)], with [chars] given as a predicate. *)
Definition strip (p : ascii -> bool) (s : string) : string :=
  rstrip p (lstrip p s).

(** [s.split()]: [cur] is the word being read, if any, and [skip]
    counts the bytes left of a blank character already met. *)
Fixpoint split_ws (skip : nat) (cur : option string) (s : string)
  : list string :=
  match s with
  | EmptyString => match cur with Some w => [w] | None => [] end
  | String c r =>
      match skip with
      | S k => split_ws k cur r
      | O =>
          match blank_at s with
          | Some k =>
              match cur with
              | Some w => w :: split_ws k None r
              | None => split_ws k None r
              end
          | None =>
              split_ws 0 (Some (match cur with
                                | Some w => w ++ String c EmptyString
                                | None => String c EmptyString
                                end)) r
          end
      end
  end.

Definition split (s : string) : list string := split_ws 0 None s.

(** [s] is made of blank characters from its first byte on, once
    [skip] bytes are passed. *)
Fixpoint blank_from (skip : nat) (s : string) : bool :=
  match s with
  | EmptyString => true
  | String c r =>
      match skip with
      | S k => blank_from k r
      | O =>
          match blank_at s with
          | Some k => blank_from k r
          | None => false
          end
      end
  end.

(** Every character of [s] is blank. *)
Definition all_blank (s : string) : bool := blank_from 0 s.

Fixpoint lstrip_blank (skip : nat) (s : string) : string :=
  match s with
  | EmptyString => EmptyString
  | String c r =>
      match skip with
      | S k => lstrip_blank k r
      | O =>
          match blank_at s with
          | Some k => lstrip_blank k r
          | None => s
          end
      end
  end.

Fixpoint rstrip_blank (s : string) : string :=
  match s with
  | EmptyString => EmptyString
  | String c r => if all_blank s then EmptyString
                  else String c (rstrip_blank r)
  end.

(** [s.strip()] *)
Definition strip_blank (s : string) : string :=
  rstrip_blank (lstrip_blank 0 s).

(** [s.split(', ')]: [cur] is the piece being read. *)
Fixpoint split_sep (cur : string) (s : string) : list string :=
  match s with
  | EmptyString => [cur]
  | String c r =>
      match r with
      | String d r' =>
          if (Ascii.eqb c ","%char && Ascii.eqb d " "%char)%bool
          then cur :: split_sep EmptyString r'
          else split_sep (cur ++ String c EmptyString) r
      | EmptyString => [cur ++ String c EmptyString]
      end
  end.

Definition split_comma_space (s : string) : list string :=
  split_sep EmptyString s.

Definition newline : string := String "010"%char EmptyString.

(** Truth value of a Python string: non-empty. *)
Definition truthy (s : string) : bool :=
  match s with EmptyString => false | _ => true end.

(** [x in xs] on strings. *)
Definition mem (x : string) (xs : list string) : bool :=
  existsb (String.eqb x) xs.

(** Every character of [s] satisfies [p]. *)
Fixpoint all_chars (p : ascii -> bool) (s : string) : bool :=
  match s with
  | EmptyString => true
  | String c r => p c && all_chars p r
  end.

(** [sub in s] *)
Definition contains (sub s : string) : bool :=
  match index 0 sub s with Some _ => true | None => false end.

(** The expression used for slugs and for tags alike:
    [re.sub('[^\w]+', '-', s.lower()).strip('-')]. *)
Definition slugify (s : string) : string :=
  strip is_hyphen (re_sub_nonword (lower s)).

End Text.

Import Text.

(** ** Data model *)

(** An [Entry] object as the views hold it.  [entry_id] and [slug] are
    [None] on a fresh [Entry(...)]; [tags] is the plain attribute that
    [_create_or_edit] assigns (a list of raw strings). *)
Record Entry := {
  entry_id  : option Z;
  title     : string;
  slug      : option string;
  content   : string;
  published : bool;
  timestamp : Z;
  tags      : list string
}.

(** A row of the [entry] table. *)
Record EntryRow := {
  row_id        : Z;
  row_title     : string;
  row_slug      : string;
  row_content   : string;
  row_published : bool;
  row_timestamp : Z
}.

(** A row of the full-text table; [save] never assigns the [tags]
    column. *)
Record FTSEntry := {
  docid        : Z;
  fts_entry_id : Z;
  fts_content  : string;
  fts_tags     : option string
}.

Record BlogEntryTag := {
  bet_id    : Z;
  bet_entry : Z;
  bet_name  : string
}.

Record Tag := {
  tag_id : Z;
  tag    : string;
  count  : Z
}.

(** The four tables, each in row order. *)
Record database := {
  entries    : list EntryRow;
  fts        : list FTSEntry;
  entry_tags : list BlogEntryTag;
  tag_rows   : list Tag
}.

Definition empty_db : database :=
  {| entries := []; fts := []; entry_tags := []; tag_rows := [] |}.

(** The key SQLite gives a new row: one more than the largest in use. *)
Definition next_id (ids : list Z) : Z := 1 + fold_right Z.max 0 ids.

(** ** Statements that can raise, over the database *)

Inductive error := IntegrityError.

Inductive result (A : Type) :=
| Ok (a : A)
| Raise (e : error).
Arguments Ok {A} a.
Arguments Raise {A} e.

(** A computation keeps the writes made before an exception, as
    autocommit does; [atomic] is what undoes them. *)
Definition Tx (A : Type) : Type := database -> result A * database.

Definition ret {A} (a : A) : Tx A := fun db => (Ok a, db).

Definition bind {A B} (m : Tx A) (k : A -> Tx B) : Tx B :=
  fun db =>
    match m db with
    | (Ok a, db') => k a db'
    | (Raise e, db') => (Raise e, db')
    end.

Notation "x <- m ;; k" := (bind m (fun x => k))
  (at level 61, m at next level, right associativity).
Notation "m ;;; k" := (bind m (fun _ => k))
  (at level 61, right associativity).

(** [for x in xs: body(x)] *)
Fixpoint for_each {A} (body : A -> Tx unit) (xs : list A) : Tx unit :=
  match xs with
  | [] => ret tt
  | x :: r => body x ;;; for_each body r
  end.

(** [with database.atomic(): m] -- commit on success, roll back to the
    state at entry when [m] raises, and let the exception through. *)
Definition atomic {A} (m : Tx A) : Tx A :=
  fun db =>
    match m db with
    | (Ok a, db') => (Ok a, db')
    | (Raise e, _) => (Raise e, db)
    end.

(** ** The write path *)

Definition set_slug (self : Entry) (s : string) : Entry :=
  {| entry_id := entry_id self; title := title self; slug := Some s;
     content := content self; published := published self;
     timestamp := timestamp self; tags := tags self |}.

Definition set_id (self : Entry) (k : Z) : Entry :=
  {| entry_id := Some k; title := title self; slug := slug self;
     content := content self; published := published self;
     timestamp := timestamp self; tags := tags self |}.

Definition row_of (k : Z) (s : string) (self : Entry) : EntryRow :=
  {| row_id := k; row_title := title self; row_slug := s;
     row_content := content self; row_published := published self;
     row_timestamp := timestamp self |}.

Definition with_entries (db : database) (l : list EntryRow) : database :=
  {| entries := l; fts := fts db; entry_tags := entry_tags db;
     tag_rows := tag_rows db |}.

Definition with_fts (db : database) (l : list FTSEntry) : database :=
  {| entries := entries db; fts := l; entry_tags := entry_tags db;
     tag_rows := tag_rows db |}.

Definition with_entry_tags (db : database) (l : list BlogEntryTag)
  : database :=
  {| entries := entries db; fts := fts db; entry_tags := l;
     tag_rows := tag_rows db |}.

Definition with_tag_rows (db : database) (l : list Tag) : database :=
  {| entries := entries db; fts := fts db; entry_tags := entry_tags db;
     tag_rows := l |}.

(** [not self.slug] *)
Definition slug_unset (self : Entry) : bool :=
  match slug self with
  | None => true
  | Some s => negb (truthy s)
  end.

(** [super(Entry, self).save()]: INSERT when the object has no id,
    UPDATE ... WHERE id = k otherwise; [slug] is NOT NULL and UNIQUE.
    The result is the row id the object holds afterwards. *)
Definition Model_save (self : Entry) : Tx Z :=
  fun db =>
    match slug self with
    | None => (Raise IntegrityError, db)
    | Some s =>
        match entry_id self with
        | None =>
            if existsb (fun r => String.eqb (row_slug r) s) (entries db)
            then (Raise IntegrityError, db)
            else
              let k := next_id (map row_id (entries db)) in
              (Ok k, with_entries db (entries db ++ [row_of k s self]))
        | Some k =>
            if existsb (fun r => row_id r =? k) (entries db) &&
               existsb (fun r => negb (row_id r =? k) &&
                                 String.eqb (row_slug r) s) (entries db)
            then (Raise IntegrityError, db)
            else
              (Ok k,
               with_entries db
                 (map (fun r => if row_id r =? k then row_of k s self
                                else r) (entries db)))
        end
    end.

(** [BlogEntryTag.create(entry_id=k, name=name)] *)
Definition BlogEntryTag_create (k : Z) (name : string) : Tx unit :=
  fun db =>
    (Ok tt,
     with_entry_tags db
       (entry_tags db ++
        [{| bet_id := next_id (map bet_id (entry_tags db));
            bet_entry := k; bet_name := name |}])).

(** The text stored for an entry:
    ['\n'.join((title, content, ','.join(tags)))]. *)
Definition search_text (self : Entry) : string :=
  String.concat newline
    [title self; content self; String.concat "," (tags self)].

(** [Entry.update_search_index] for the object whose id is [k]. *)
Definition update_search_index (k : Z) (self : Entry) : Tx unit :=
  fun db =>
    match find (fun d => fts_entry_id d =? k) (fts db) with
    | None =>
        (Ok tt,
         with_fts db
           (fts db ++
            [{| docid := next_id (map docid (fts db)); fts_entry_id := k;
                fts_content := search_text self; fts_tags := None |}]))
    | Some d0 =>
        (Ok tt,
         with_fts db
           (map (fun d => if docid d =? docid d0
                          then {| docid := docid d;
                                  fts_entry_id := fts_entry_id d0;
                                  fts_content := search_text self;
                                  fts_tags := fts_tags d |}
                          else d) (fts db)))
    end.

Definition bump (r : Tag) : Tag :=
  {| tag_id := tag_id r; tag := tag r; count := count r + 1 |}.

(** [Tag.update(count=Tag.count+1).where(Tag.tag << ts).execute()] *)
Definition Tag_increment (ts : list string) : Tx unit :=
  fun db =>
    (Ok tt,
     with_tag_rows db
       (map (fun r => if mem (tag r) ts then bump r else r) (tag_rows db))).

(** [[x.tag for x in Tag.select(Tag.tag).where(Tag.tag << ts)]] *)
Definition Tag_select_in (ts : list string) (db : database) : list string :=
  map tag (filter (fun r => mem (tag r) ts) (tag_rows db)).

(** [Tag.create(tag=t, count=c)]; [tag] is UNIQUE. *)
Definition Tag_create (t : string) (c : Z) : Tx unit :=
  fun db =>
    if existsb (fun r => String.eqb (tag r) t) (tag_rows db)
    then (Raise IntegrityError, db)
    else
      (Ok tt,
       with_tag_rows db
         (tag_rows db ++
          [{| tag_id := next_id (map tag_id (tag_rows db));
              tag := t; count := c |}])).

(** [Entry.update_tags]: both queries receive the raw tag list; the
    loop compares the normalised tag with the rows they returned. *)
Definition update_tags (self : Entry) : Tx unit :=
  Tag_increment (tags self) ;;;
  fun db =>
    let existing_tags := Tag_select_in (tags self) db in
    for_each
      (fun t =>
         let t' := slugify t in
         if mem t' existing_tags then ret tt else Tag_create t' 1)
      (tags self) db.

(** [if not self.slug: self.slug = re.sub(...).strip('-')] *)
Definition derive_slug (self : Entry) : Entry :=
  if slug_unset self then set_slug self (slugify (title self)) else self.

(** [Entry.save]; the result is the object as the method leaves it. *)
Definition Entry_save (self : Entry) : Tx Entry :=
  let self := derive_slug self in
  k <- Model_save self ;;
  let self := set_id self k in
  for_each (fun t => BlogEntryTag_create k (slugify t)) (tags self) ;;;
  update_search_index k self ;;;
  update_tags self ;;;
  ret self.

(** ** The views that write *)

(** The POST fields; an absent [title], [content] or [published] reads
    as the empty string ([request.form.get(..) or ..]). *)
Record form := {
  form_title     : string;
  form_content   : string;
  form_published : string;
  form_tags      : string
}.

Inductive response :=
| Rendered (flash : option string)
| Redirect_detail (s : string)
| Redirect_edit (s : string)
| NotFound.

Definition fill (entry : Entry) (f : form) : Entry :=
  {| entry_id := entry_id entry;
     title := form_title f;
     slug := slug entry;
     content := form_content f;
     published := truthy (form_published f);
     timestamp := timestamp entry;
     tags := split_comma_space (strip_blank (form_tags f)) |}.

(** [_create_or_edit] on a POST. *)
Definition create_or_edit (entry : Entry) (f : form)
  : database -> response * database :=
  fun db =>
    let entry := fill entry f in
    if negb (truthy (title entry) && truthy (content entry)) then
      (Rendered (Some "Title and Content are required."), db)
    else
      match atomic (Entry_save entry) db with
      | (Raise IntegrityError, db') =>
          (Rendered (Some "Error: this title is already in use."), db')
      | (Ok e, db') =>
          let s := match slug e with Some s => s | None => "" end in
          (if published e then Redirect_detail s else Redirect_edit s, db')
      end.

(** The object peewee builds from a row. *)
Definition entry_of_row (r : EntryRow) : Entry :=
  {| entry_id := Some (row_id r); title := row_title r;
     slug := Some (row_slug r); content := row_content r;
     published := row_published r; timestamp := row_timestamp r;
     tags := [] |}.

(** [create()] on a POST at time [now]. *)
Definition create (now : Z) (f : form) : database -> response * database :=
  create_or_edit
    {| entry_id := None; title := ""; slug := None; content := "";
       published := false; timestamp := now; tags := [] |} f.

(** [edit(slug)] on a POST. *)
Definition edit (s : string) (f : form) : database -> response * database :=
  fun db =>
    match find (fun r => String.eqb (row_slug r) s) (entries db) with
    | None => (NotFound, db)
    | Some r => create_or_edit (entry_of_row r) f db
    end.

Inductive request :=
| POST_create (now : Z) (f : form)
| POST_edit (s : string) (f : form).

Definition handle (rq : request) (db : database) : response * database :=
  match rq with
  | POST_create now f => create now f db
  | POST_edit s f => edit s f db
  end.

(** The databases the application can be in. *)
Inductive reachable : database -> Prop :=
| reach_empty : reachable empty_db
| reach_step rq db : reachable db -> reachable (snd (handle rq db)).

(** ** The read paths *)

(** [Entry.public()] *)
Definition public (db : database) : list EntryRow :=
  filter (fun r => row_published r) (entries db).

(** [Entry.drafts()] *)
Definition drafts (db : database) : list EntryRow :=
  filter (fun r => negb (row_published r)) (entries db).

(** [blogs_by_tag(tag_name)]: the ids of the entries the association
    rows named [tag_name] point to, then the entries with those ids. *)
Definition blogs_by_tag (tag_name : string) (db : database) : list EntryRow :=
  let blog_entry_list :=
    map bet_entry
      (filter (fun x => String.eqb (bet_name x) tag_name) (entry_tags db)) in
  filter (fun r => existsb (Z.eqb (row_id r)) blog_entry_list) (entries db).

(** ** Search *)

Section Search.

(** SQLite's full-text engine is outside the program: [fts_match q d]
    stands for [FTSEntry.match(q)] on the row [d] and [fts_rank q d] for
    [FTSEntry.rank()], for an expression [q] the engine can parse.
    What running the query gives for one it cannot parse is [runs_to],
    further down. *)
Variable fts_match : string -> FTSEntry -> bool.
Variable fts_rank : string -> FTSEntry -> Z.

(** [[word.strip() for word in query.split() if word.strip()]] *)
Definition search_words (query : string) : list string :=
  map strip_blank
    (filter (fun w => truthy (strip_blank w)) (split query)).

Definition hit : Type := FTSEntry * EntryRow * Z.

Definition score (h : hit) : Z := snd h.

Fixpoint insert_desc (h : hit) (l : list hit) : list hit :=
  match l with
  | [] => [h]
  | h' :: r => if score h' <? score h then h :: l else h' :: insert_desc h r
  end.

(** [.order_by(SQL('score').desc())] *)
Definition order_by_score_desc (l : list hit) : list hit :=
  fold_right insert_desc [] l.

(** What [Entry.search] returns: entry rows for a blank query, joined
    rows with their score otherwise. *)
Inductive search_result :=
| Blank_query (rows : list EntryRow)
| Ranked (rows : list hit).

(** [Entry.search(query)]: the rows of the query it builds. *)
Definition search (query : string) (db : database) : search_result :=
  match search_words query with
  | [] => Blank_query (filter (fun r => row_id r =? 0) (entries db))
  | words =>
      let q := String.concat " " words in
      Ranked
        (order_by_score_desc
           (flat_map
              (fun d =>
                 map (fun r => (d, r, fts_rank q d))
                   (filter
                      (fun r => (fts_entry_id d =? row_id r) &&
                                row_published r && fts_match q d)
                      (entries db)))
              (fts db)))
  end.

(** The entries a search result lists. *)
Definition result_entries (res : search_result) : list EntryRow :=
  match res with
  | Blank_query rows => rows
  | Ranked rows => map (fun h => snd (fst h)) rows
  end.

(** The operations of the core, reads included. *)
Inductive operation :=
| Op_save (self : Entry)
| Op_post (rq : request)
| Op_public
| Op_drafts
| Op_search (query : string)
| Op_tag_listing (tag_name : string).

Inductive answer :=
| Saved (r : result Entry)
| Responded (r : response)
| Listed (rows : list EntryRow).

Definition run (op : operation) (db : database) : answer * database :=
  match op with
  | Op_save self => let (r, db') := Entry_save self db in (Saved r, db')
  | Op_post rq => let (r, db') := handle rq db in (Responded r, db')
  | Op_public => (Listed (public db), db)
  | Op_drafts => (Listed (drafts db), db)
  | Op_search q => (Listed (result_entries (search q db)), db)
  | Op_tag_listing t => (Listed (blogs_by_tag t db), db)
  end.

Fixpoint run_all (ops : list operation) (db : database) : database :=
  match ops with
  | [] => db
  | op :: r => run_all r (snd (run op db))
  end.

End Search.

(** ** Predicates of the statements below *)

(** Every run of [m] relates the database before to the one after. *)
Definition respects (R : database -> database -> Prop) {A} (m : Tx A)
  : Prop :=
  forall db, R db (snd (m db)).

(** The table (or other view) [f] is the same before and after. *)
Definition keeps {T} (f : database -> T) : database -> database -> Prop :=
  fun db db' => f db = f db'.

(** The characters a slug may hold. *)
Definition slug_char (c : ascii) : bool := is_word c || is_hyphen c.

(** The slug an object is saved under. *)
Definition effective_slug (self : Entry) : string :=
  match slug self with
  | Some s => if truthy s then s else slugify (title self)
  | None => slugify (title self)
  end.

(** The slug generator in the order the specification words it:
    replace the runs, lower-case, strip. *)
Definition generate_as_worded (t : string) : string :=
  strip is_hyphen (lower (re_sub_nonword t)).

(** The documents held for entry [k]. *)
Definition documents_for (k : Z) (db : database) : list FTSEntry :=
  filter (fun d => fts_entry_id d =? k) (fts db).

(** The counters of the tag table, by token. *)
Definition tag_counts (db : database) : list (string * Z) :=
  map (fun r => (tag r, count r)) (tag_rows db).

(** [Tag.get(tag == t).count] *)
Definition count_of (t : string) (db : database) : option Z :=
  option_map count (find (fun r => String.eqb (tag r) t) (tag_rows db)).

(** No counter of [db] is lower or missing in [db']. *)
Definition counts_grow (db db' : database) : Prop :=
  forall r, In r (tag_rows db) ->
    exists r', In r' (tag_rows db') /\ tag_id r' = tag_id r /\
               tag r' = tag r /\ count r <= count r'.

(** Every counter of [db'] continues one of [db] or starts at 1. *)
Definition counts_start_at_one (db db' : database) : Prop :=
  forall r', In r' (tag_rows db') ->
    (exists r, In r (tag_rows db) /\ tag r = tag r' /\ count r <= count r')
    \/ count r' = 1.

(** The tag table of [db'] is that of [db] followed by new rows, each
    with count 1. *)
Definition appends_ones (db db' : database) : Prop :=
  exists new, tag_rows db' = (tag_rows db ++ new)%list /\
              Forall (fun r => count r = 1) new.

(** What every database the application builds satisfies: row ids are
    positive, slugs are made of word characters and hyphens, and the
    full-text table has one row per [docid] and per entry. *)
Record well_formed (db : database) : Prop := {
  wf_ids   : forall r, In r (entries db) -> 0 < row_id r;
  wf_slugs : forall r, In r (entries db) ->
                       all_chars slug_char (row_slug r) = true;
  wf_docid : NoDup (map docid (fts db));
  wf_docs  : NoDup (map fts_entry_id (fts db))
}.

(** The slug an object carries, if any, is a valid one. *)
Definition slug_valid (self : Entry) : Prop :=
  forall s, slug self = Some s -> all_chars slug_char s = true.

(** The reading of the search-document property under which the text
    holds the title, the content and every normalised tag; "exactly
    once" and "nothing older remains" are left out, so this reading is
    implied by the full one. *)
Definition document_holds_normalised_tags (self : Entry) (db : database)
  : Prop :=
  forall e db', Entry_save self db = (Ok e, db') ->
    exists k d, entry_id e = Some k /\ documents_for k db' = [d] /\
      contains (title e) (fts_content d) = true /\
      contains (content e) (fts_content d) = true /\
      forall t, In t (tags e) ->
                contains (slugify t) (fts_content d) = true.

(** The reading of the re-save property as worded: saving the saved
    object again, in a transaction as the view does, leaves the
    counters as they were. *)
Definition resave_keeps_counts (self : Entry) (db : database) : Prop :=
  forall e1 db1, Entry_save self db = (Ok e1, db1) ->
    tag_counts (snd (atomic (Entry_save e1) db1)) = tag_counts db1.

(** The reading of the empty-slug rule as worded: a posted entry whose
    title gives the empty slug is answered with a message and nothing
    is written. *)
Definition empty_slug_rejected (now : Z) (f : form) (db : database) : Prop :=
  slugify (form_title f) = "" ->
  exists msg, create now f db = (Rendered (Some msg), db).

(** ** Sample data *)

(** The entry of the specification's scenario. *)
Definition entry_hello : Entry :=
  {| entry_id := None; title := "Hello, World!"; slug := None;
     content := "first post"; published := true; timestamp := 0;
     tags := ["Announce"] |}.

(** The same entry as the form of [/create/] posts it. *)
Definition form_hello : form :=
  {| form_title := "Hello, World!"; form_content := "first post";
     form_published := "y"; form_tags := "Announce" |}.

Definition db_hello : database :=
  snd (handle (POST_create 0 form_hello) empty_db).

Definition row_hello : EntryRow :=
  {| row_id := 1; row_title := "Hello, World!"; row_slug := "hello-world";
     row_content := "first post"; row_published := true;
     row_timestamp := 0 |}.

(** A second entry whose title gives the same slug. *)
Definition entry_hello_again : Entry :=
  {| entry_id := None; title := "Hello, World"; slug := None;
     content := "second post"; published := true; timestamp := 5;
     tags := ["News"] |}.

(** A stand-in for the full-text engine: the query occurs in the text;
    every hit scores the same. *)
Definition substring_match (q : string) (d : FTSEntry) : bool :=
  contains q (fts_content d).

Definition flat_rank (q : string) (d : FTSEntry) : Z := 0.

(** An unpublished entry tagged [x]. *)
Definition entry_notes : Entry :=
  {| entry_id := None; title := "Notes"; slug := None;
     content := "not ready"; published := false; timestamp := 7;
     tags := ["x"] |}.

Definition form_notes : form :=
  {| form_title := "Notes"; form_content := "not ready";
     form_published := ""; form_tags := "x" |}.

Definition db_notes : database :=
  snd (handle (POST_create 7 form_notes) db_hello).

Definition row_notes : EntryRow :=
  {| row_id := 2; row_title := "Notes"; row_slug := "notes";
     row_content := "not ready"; row_published := false;
     row_timestamp := 7 |}.

(** An entry whose tag is typed in its normalised form. *)
Definition entry_announce : Entry :=
  {| entry_id := None; title := "Release"; slug := None;
     content := "out now"; published := true; timestamp := 3;
     tags := ["announce"] |}.

Definition db_announce : database :=
  snd (Entry_save entry_announce empty_db).

(** A post whose title is punctuation only. *)
Definition form_punctuation : form :=
  {| form_title := "?!"; form_content := "what"; form_published := "";
     form_tags := "misc" |}.

Definition entry_punctuation : Entry :=
  {| entry_id := None; title := "?!"; slug := None; content := "what";
     published := false; timestamp := 9; tags := ["misc"] |}.

(** A post tagged [Announce], capitalised, for a database that already
    counts [announce]. *)
Definition form_news : form :=
  {| form_title := "News"; form_content := "more"; form_published := "y";
     form_tags := "Announce" |}.

Definition entry_news : Entry :=
  {| entry_id := None; title := "News"; slug := None; content := "more";
     published := true; timestamp := 11; tags := ["Announce"] |}.

(** ** Ordering, the remaining views and the session *)

(** [ORDER BY ... DESC] by insertion; [lt a b] says that [a] sorts
    below [b].  Rows that compare equal come out in some order, as in
    SQL. *)
Fixpoint insert_by {A} (lt : A -> A -> bool) (x : A) (l : list A) : list A :=
  match l with
  | [] => [x]
  | y :: r => if lt y x then x :: l else y :: insert_by lt x r
  end.

Definition order_by_desc {A} (lt : A -> A -> bool) (l : list A) : list A :=
  fold_right (insert_by lt) [] l.

(** [Entry.timestamp.desc()], [Tag.count.desc()], [Tag.tag.desc()] *)
Definition by_timestamp (a b : EntryRow) : bool :=
  row_timestamp a <? row_timestamp b.

Definition by_count (a b : Tag) : bool := count a <? count b.

Definition by_token (a b : Tag) : bool := String.ltb (tag a) (tag b).

(** [drafts()]: the query handed to [object_list]. *)
Definition drafts_view (db : database) : list EntryRow :=
  order_by_desc by_timestamp (drafts db).

(** [detail(slug)]: [get_object_or_404] over all entries for a logged-in
    session, over the public ones otherwise; [None] is the 404. *)
Definition detail (logged : bool) (s : string) (db : database)
  : option EntryRow :=
  find (fun r => String.eqb (row_slug r) s)
    (if logged then entries db else public db).

(** [list_all_tags] *)
Definition list_all_tags (db : database) : list Tag :=
  order_by_desc by_count (tag_rows db).

(** [tags()] *)
Definition tags_view (db : database) : list Tag :=
  order_by_desc by_token (tag_rows db).

Definition USERNAME : string := "root".
Definition PASSWORD : string := "root".

(** The session, of which the views read and write the key
    [logged_in] only. *)
Record session := { logged_in : bool }.

(** Requests, after routing. *)
Inductive app_request :=
| Login_GET
| Login_POST (username password : string)
| Logout_GET
| Logout_POST
| Index_GET (q : option string)
| Create_POST (now : Z) (f : form)
| Drafts_GET
| Detail_GET (s : string)
| Edit_POST (s : string) (f : form)
| Tags_GET
| Tag_GET (tag_name : string).

Inductive app_response :=
| Login_page (flash : option string)
| Logout_page
| Redirect_index
| Redirect_login (next : option string)
| Listing (rows : list EntryRow)
| Tag_listing (rows : list Tag)
| Detail_page (r : EntryRow)
| Posted (r : response)
| Not_found.

(** [@login_required]: the view runs for a logged-in session; any other
    is sent to the login page with the path it asked for. *)
Definition login_required (s : session) (path : string)
    (fn : database -> app_response * session * database)
  : database -> app_response * session * database :=
  fun db =>
    if logged_in s then fn db else (Redirect_login (Some path), s, db).

Section Application.

Variable fts_match : string -> FTSEntry -> bool.
Variable fts_rank : string -> FTSEntry -> Z.

(** [index()]: the query handed to [object_list]. *)
Definition index (q : option string) (db : database) : list EntryRow :=
  match q with
  | Some query =>
      if truthy query
      then result_entries (search fts_match fts_rank query db)
      else order_by_desc by_timestamp (public db)
  | None => order_by_desc by_timestamp (public db)
  end.

Definition app_handle (s : session) (rq : app_request) (db : database)
  : app_response * session * database :=
  match rq with
  | Login_GET => (Login_page None, s, db)
  | Login_POST u p =>
      if negb (String.eqb u USERNAME) || negb (String.eqb p PASSWORD)
      then (Login_page (Some "Invalid username or password"), s, db)
      else (Redirect_index, {| logged_in := true |}, db)
  | Logout_GET => (Logout_page, s, db)
  | Logout_POST => (Redirect_login None, {| logged_in := false |}, db)
  | Index_GET q => (Listing (index q db), s, db)
  | Create_POST now f =>
      login_required s "/create/"
        (fun db => let (r, db') := create now f db in (Posted r, s, db')) db
  | Drafts_GET =>
      login_required s "/drafts/"
        (fun db => (Listing (drafts_view db), s, db)) db
  | Detail_GET slug =>
      (match detail (logged_in s) slug db with
       | Some r => Detail_page r
       | None => Not_found
       end, s, db)
  | Edit_POST slug f =>
      login_required s ("/" ++ slug ++ "/edit/")
        (fun db => let (r, db') := edit slug f db in (Posted r, s, db')) db
  | Tags_GET => (Tag_listing (tags_view db), s, db)
  | Tag_GET t => (Listing (blogs_by_tag t db), s, db)
  end.

(** A client's requests in turn, from session [s] and database [db]. *)
Fixpoint app_run (s : session) (rqs : list app_request) (db : database)
  : session * database :=
  match rqs with
  | [] => (s, db)
  | rq :: r =>
      let '(_, s', db') := app_handle s rq db in app_run s' r db'
  end.

End Application.

(** A POST to [/login] that carries the configured credentials. *)
Definition opens_session (rq : app_request) : bool :=
  match rq with
  | Login_POST u p => String.eqb u USERNAME && String.eqb p PASSWORD
  | _ => false
  end.

(** ** Further predicates *)

Definition first_char (s : string) : option ascii :=
  match s with
  | EmptyString => None
  | String c _ => Some c
  end.

Fixpoint last_char (s : string) : option ascii :=
  match s with
  | EmptyString => None
  | String c r =>
      match last_char r with
      | None => Some c
      | Some d => Some d
      end
  end.

(** No two hyphens in a row. *)
Fixpoint single_hyphens (s : string) : bool :=
  match s with
  | EmptyString => true
  | String c r =>
      negb (is_hyphen c &&
            match first_char r with
            | Some d => is_hyphen d
            | None => false
            end) && single_hyphens r
  end.

(** A lower-case letter, a digit, the underscore or the hyphen. *)
Definition token_char (c : ascii) : bool :=
  slug_char c && Ascii.eqb (lower_char c) c.

(** The document [d] is the one of the entry row [r]: it carries the
    row's id, and its text is the row's title and content followed by
    some tag list. *)
Definition mirrors (r : EntryRow) (d : FTSEntry) : Prop :=
  fts_entry_id d = row_id r /\
  exists ts, fts_content d =
             row_title r ++ newline ++ row_content r ++ newline ++
             String.concat "," ts.

(** The object is new, or is the object of a row of the table. *)
Definition new_or_stored (self : Entry) (db : database) : Prop :=
  entry_id self = None \/
  exists r, In r (entries db) /\ entry_id self = Some (row_id r).

(** The four tables agree with each other. *)
Record consistent (db : database) : Prop := {
  cs_ids    : NoDup (map row_id (entries db));
  cs_slugs  : NoDup (map row_slug (entries db));
  cs_docid  : NoDup (map docid (fts db));
  cs_docs   : Forall2 mirrors (entries db) (fts db);
  cs_assoc  : forall x, In x (entry_tags db) ->
                In (bet_entry x) (map row_id (entries db)) /\
                In (bet_name x) (map tag (tag_rows db));
  cs_tokens : NoDup (map tag (tag_rows db));
  cs_tags   : forall t, In t (tag_rows db) ->
                1 <= count t /\ slugify (tag t) = tag t /\
                exists x, In x (entry_tags db) /\ bet_name x = tag t
}.

(** The tag table of [db'] is that of [db] followed by new rows; each
    new row has count 1 and a token that is the normalised form of a
    tag of [ts] and differs from every token before it. *)
Definition appends_tokens (ts : list string) (db db' : database) : Prop :=
  exists new,
    tag_rows db' = (tag_rows db ++ new)%list /\
    Forall (fun r => count r = 1 /\ exists t, In t ts /\ tag r = slugify t)
      new /\
    (NoDup (map tag (tag_rows db)) -> NoDup (map tag (tag_rows db'))).

(** The association table of [db'] is that of [db] followed by rows of
    entry [k], one for each tag of [ts], named by its normalised form. *)
Definition appends_associations (k : Z) (ts : list string)
    (db db' : database) : Prop :=
  exists new,
    entry_tags db' = (entry_tags db ++ new)%list /\
    map bet_entry new = map (fun _ => k) ts /\
    map bet_name new = map slugify ts.

(** The count a successful save of the tag list [ts] leaves for the
    token [n]. *)
Definition count_after (ts : list string) (n : string) (db : database)
  : option Z :=
  if mem n (map slugify ts)
  then Some (match count_of n db with Some c => c + 1 | None => 1 end)
  else count_of n db.

(** What a response of [_create_or_edit] says about the database. *)
Definition answer_matches (resp : response) (db db' : database) : Prop :=
  match resp with
  | Redirect_detail s | Redirect_edit s =>
      exists self e, Entry_save self db = (Ok e, db') /\ slug e = Some s /\
                     new_or_stored self db
  | Rendered _ | NotFound => db' = db
  end.

(** [a] may come before [b] in a descending listing: it does not sort
    below it. *)
Definition not_below {A} (lt : A -> A -> bool) (a b : A) : Prop :=
  lt a b = false.

(** The maximal runs of word characters of [s], in order. *)
Fixpoint word_runs (s : string) : list string :=
  match s with
  | EmptyString => []
  | String c r =>
      if is_word c then
        match first_char r with
        | Some d =>
            if is_word d then
              match word_runs r with
              | w :: ws => String c w :: ws
              | [] => [String c EmptyString]
              end
            else String c EmptyString :: word_runs r
        | None => [String c EmptyString]
        end
      else word_runs r
  end.

(** The reading of the slug rule in the order it is worded: an entry
    without a slug gets its title with the runs replaced first and the
    result lower-cased after. *)
Definition slug_as_worded (self : Entry) : Prop :=
  slug_unset self = true ->
  slug (derive_slug self) = Some (generate_as_worded (title self)).

(** ** Running a search *)

(** What running a query gives: its rows, or the error SQLite raises
    for a MATCH expression it cannot parse. *)
Inductive query_outcome :=
| Returned (res : search_result)
| OperationalError.

Section Engine.

(** [fts_accepts e] says that the full-text engine can parse the
    expression [e]; [fts_match] and [fts_rank] are as in [search], and
    matter for accepted expressions only. *)
Variable fts_accepts : string -> bool.
Variable fts_match : string -> FTSEntry -> bool.
Variable fts_rank : string -> FTSEntry -> Z.

(** The MATCH expression [Entry.search] builds. *)
Definition match_expression (query : string) : string :=
  String.concat " " (search_words query).

(** Running the query that [Entry.search(query)] returns.  A blank
    query runs no MATCH.  An expression the engine accepts gives the
    rows of [search].  One it rejects raises when the engine opens the
    full-text table; whether it opens it when no entry is published is
    the planner's choice, and if it does not, there is no row. *)
Inductive runs_to (query : string) (db : database)
  : query_outcome -> Prop :=
| run_blank :
    search_words query = [] ->
    runs_to query db (Returned (search fts_match fts_rank query db))
| run_accepted :
    search_words query <> [] ->
    fts_accepts (match_expression query) = true ->
    runs_to query db (Returned (search fts_match fts_rank query db))
| run_malformed :
    search_words query <> [] ->
    fts_accepts (match_expression query) = false ->
    runs_to query db OperationalError
| run_unopened :
    search_words query <> [] ->
    fts_accepts (match_expression query) = false ->
    public db = [] ->
    runs_to query db (Returned (Ranked [])).

End Engine.

(** The entry rows a response shows. *)
Definition shown (resp : app_response) : list EntryRow :=
  match resp with
  | Listing rows => rows
  | Detail_page r => [r]
  | _ => []
  end.

(** Not a request for the listing of a tag. *)
Definition not_tag_listing (rq : app_request) : bool :=
  match rq with
  | Tag_GET _ => false
  | _ => true
  end.

(** More sample data. *)

(** U+212A, the Kelvin sign, and a title that begins with it. *)
Definition kelvin_sign : string :=
  String "226"%char (String "132"%char (String "170"%char EmptyString)).

Definition entry_kelvin : Entry :=
  {| entry_id := None; title := kelvin_sign ++ "elvin"; slug := None;
     content := "absolute"; published := true; timestamp := 13;
     tags := ["units"] |}.

(** U+00A0 and U+3000, and a query made of blank characters. *)
Definition no_break_space : string :=
  String "194"%char (String "160"%char EmptyString).

Definition ideographic_space : string :=
  String "227"%char (String "128"%char (String "128"%char EmptyString)).

Definition blank_query : string :=
  " " ++ no_break_space ++ ideographic_space ++ String "009"%char " ".

(** A query that opens a phrase and does not close it. *)
Definition quoted_query : string := String "034"%char "first".

(** A stand-in for the engine's parser: no double quote in the
    expression. *)
Definition no_quote (e : string) : bool :=
  all_chars (fun c => negb (Ascii.eqb c "034"%char)) e.

Definition form_edit_hello : form :=
  {| form_title := "Hello again"; form_content := "edited";
     form_published := ""; form_tags := "announce, x" |}.

Definition logged_out : session := {| logged_in := false |}.

(** * Properties *)

(** ** Text *)

Example slugify_hello : slugify "Hello, World!" = "hello-world".
Proof. reflexivity. Qed.

Example slugify_punctuation : slugify "?!..." = "".
Proof. reflexivity. Qed.

Example split_blank : split "   " = [].
Proof. reflexivity. Qed.

Example split_words : split "  first   post " = ["first"; "post"].
Proof. reflexivity. Qed.

Example split_tags : split_comma_space "a, b,c, " = ["a"; "b,c"; ""].
Proof. reflexivity. Qed.

Example split_tags_empty : split_comma_space "" = [""].
Proof. reflexivity. Qed.

Ltac each_char c :=
  destruct c as [[] [] [] [] [] [] [] []]; vm_compute; try reflexivity.

Lemma is_word_lower_char c : is_word (lower_char c) = is_word c.
Proof. each_char c. Qed.

Example split_unicode_blanks :
  split ("a" ++ no_break_space ++ "b" ++ ideographic_space) = ["a"; "b"] /\
  split blank_query = [] /\
  strip_blank (no_break_space ++ "a b" ++ ideographic_space) = "a b".
Proof. repeat split. Qed.

Example slugify_kelvin :
  slugify (kelvin_sign ++ "elvin") = "kelvin" /\
  generate_as_worded (kelvin_sign ++ "elvin") = "elvin".
Proof. split; reflexivity. Qed.

Lemma word_not_hyphen c : is_word c = true -> is_hyphen c = false.
Proof. each_char c; intro H; discriminate H. Qed.

Lemma hyphen_not_word c : is_hyphen c = true -> is_word c = false.
Proof.
  intro H; destruct (is_word c) eqn:W; [|reflexivity].
  apply word_not_hyphen in W; congruence.
Qed.

Lemma hyphen_is c : is_hyphen c = true -> c = "-"%char.
Proof. unfold is_hyphen; apply Ascii.eqb_eq. Qed.

Lemma slug_char_word c : is_word c = true -> slug_char c = true.
Proof. unfold slug_char; intros ->; reflexivity. Qed.

Lemma sub_runs_slug_chars b s :
  all_chars slug_char (sub_runs b s) = true.
Proof.
  revert b; induction s as [|c r IH]; intro b; simpl; [reflexivity|].
  destruct (is_word c) eqn:W; simpl.
  - now rewrite (slug_char_word _ W), IH.
  - destruct b; simpl; now rewrite ?IH.
Qed.

Lemma lstrip_all_chars p q s :
  all_chars p s = true -> all_chars p (lstrip q s) = true.
Proof.
  induction s as [|c r IH]; simpl; [trivial|].
  intro H; apply andb_prop in H as [Hc Hr].
  destruct (q c); [auto|]. simpl; now rewrite Hc, Hr.
Qed.

Lemma rstrip_all_chars p q s :
  all_chars p s = true -> all_chars p (rstrip q s) = true.
Proof.
  induction s as [|c r IH]; simpl; [trivial|].
  intro H; apply andb_prop in H as [Hc Hr].
  specialize (IH Hr).
  destruct (rstrip q r) eqn:E.
  - destruct (q c); simpl; [reflexivity | now rewrite Hc].
  - simpl in *. now rewrite Hc, IH.
Qed.

Lemma slugify_slug_chars s : all_chars slug_char (slugify s) = true.
Proof.
  unfold slugify, strip, re_sub_nonword.
  apply rstrip_all_chars, lstrip_all_chars, sub_runs_slug_chars.
Qed.

Lemma split_ws_blank k s :
  blank_from k s = true -> split_ws k None s = [].
Proof.
  revert k; induction s as [|c r IH]; intro k; [reflexivity|].
  cbn [blank_from split_ws].
  destruct k as [|k]; [|apply IH].
  destruct (blank_at (String c r)) as [j|]; [apply IH | discriminate].
Qed.

Lemma search_words_blank q :
  all_blank q = true -> search_words q = [].
Proof.
  intro H; unfold search_words, split.
  now rewrite (split_ws_blank 0 q H).
Qed.

Lemma mem_In x xs : mem x xs = true <-> In x xs.
Proof.
  unfold mem; rewrite existsb_exists; split.
  - intros (y & Hy & E). apply String.eqb_eq in E. now subst.
  - intro H; exists x; split; [assumption | apply String.eqb_refl].
Qed.

(** ** Row keys *)

Lemma fold_max_ge ids k : In k ids -> k <= fold_right Z.max 0 ids.
Proof.
  induction ids as [|a r IH]; simpl; [contradiction|].
  intros [->|H]; [lia | specialize (IH H); lia].
Qed.

Lemma next_id_fresh ids : ~ In (next_id ids) ids.
Proof.
  intro H; apply fold_max_ge in H; unfold next_id in H; lia.
Qed.

Lemma next_id_positive ids : 0 < next_id ids.
Proof.
  unfold next_id.
  assert (0 <= fold_right Z.max 0 ids) by (induction ids; simpl; lia).
  lia.
Qed.

(** ** Sequencing *)

Lemma bind_Ok {A B} (m : Tx A) (k : A -> Tx B) db b db' :
  bind m k db = (Ok b, db') ->
  exists a db1, m db = (Ok a, db1) /\ k a db1 = (Ok b, db').
Proof.
  unfold bind; destruct (m db) as [[a|e] db1]; intro H.
  - now exists a, db1.
  - discriminate H.
Qed.

Lemma atomic_Ok {A} (m : Tx A) db a db' :
  atomic m db = (Ok a, db') <-> m db = (Ok a, db').
Proof.
  unfold atomic; destruct (m db) as [[x|e] db1]; split; intro H;
    try assumption; try discriminate H.
Qed.

Lemma atomic_Raise {A} (m : Tx A) db e db' :
  atomic m db = (Raise e, db') -> db' = db.
Proof.
  unfold atomic; destruct (m db) as [[x|e'] db1]; intro H;
    [discriminate H | now inversion H].
Qed.

(** A relation between the database before and after that every
    statement of a computation respects is respected by the whole. *)
Section Respect.

Variable R : database -> database -> Prop.
Hypothesis R_refl : forall db, R db db.
Hypothesis R_trans : forall a b c, R a b -> R b c -> R a c.

Lemma respects_ret {A} (a : A) : respects R (ret a).
Proof. intro db; apply R_refl. Qed.

Lemma respects_bind {A B} (m : Tx A) (k : A -> Tx B) :
  respects R m -> (forall a, respects R (k a)) -> respects R (bind m k).
Proof.
  intros Hm Hk db; unfold bind.
  specialize (Hm db); destruct (m db) as [[a|e] db1]; simpl in *.
  - eapply R_trans; [exact Hm | apply Hk].
  - exact Hm.
Qed.

Lemma respects_for_each {A} (body : A -> Tx unit) xs :
  (forall x, respects R (body x)) -> respects R (for_each body xs).
Proof.
  intro Hb; induction xs as [|x r IH]; simpl.
  - apply respects_ret.
  - apply respects_bind; [apply Hb | intros _; exact IH].
Qed.

Lemma respects_atomic {A} (m : Tx A) :
  respects R m -> respects R (atomic m).
Proof.
  intros Hm db; unfold atomic.
  specialize (Hm db); destruct (m db) as [[a|e] db1]; simpl in *.
  - exact Hm.
  - apply R_refl.
Qed.

End Respect.

Lemma respects_run R {A} (m : Tx A) db r db' :
  respects R m -> m db = (r, db') -> R db db'.
Proof. intros H E; specialize (H db); now rewrite E in H. Qed.

Lemma keeps_refl {T} (f : database -> T) db : keeps f db db.
Proof. reflexivity. Qed.

Lemma keeps_trans {T} (f : database -> T) a b c :
  keeps f a b -> keeps f b c -> keeps f a c.
Proof. unfold keeps; congruence. Qed.

Create HintDb frame.
#[local] Hint Resolve keeps_refl keeps_trans : frame.

(** ** What each statement leaves alone *)

Ltac frame_of m :=
  let db := fresh "db" in
  intro db; unfold keeps, m; simpl;
  repeat match goal with
         | |- context [match ?x with _ => _ end] => destruct x; simpl
         end;
  reflexivity.

Lemma Model_save_fts self : respects (keeps fts) (Model_save self).
Proof. frame_of Model_save. Qed.

Lemma Model_save_entry_tags self :
  respects (keeps entry_tags) (Model_save self).
Proof. frame_of Model_save. Qed.

Lemma Model_save_tag_rows self : respects (keeps tag_rows) (Model_save self).
Proof. frame_of Model_save. Qed.

Lemma BlogEntryTag_create_entries k n :
  respects (keeps entries) (BlogEntryTag_create k n).
Proof. frame_of BlogEntryTag_create. Qed.

Lemma BlogEntryTag_create_fts k n :
  respects (keeps fts) (BlogEntryTag_create k n).
Proof. frame_of BlogEntryTag_create. Qed.

Lemma BlogEntryTag_create_tag_rows k n :
  respects (keeps tag_rows) (BlogEntryTag_create k n).
Proof. frame_of BlogEntryTag_create. Qed.

Lemma update_search_index_entries k self :
  respects (keeps entries) (update_search_index k self).
Proof. frame_of update_search_index. Qed.

Lemma update_search_index_entry_tags k self :
  respects (keeps entry_tags) (update_search_index k self).
Proof. frame_of update_search_index. Qed.

Lemma update_search_index_tag_rows k self :
  respects (keeps tag_rows) (update_search_index k self).
Proof. frame_of update_search_index. Qed.

Lemma Tag_increment_others {T} (f : database -> T) ts :
  (forall db l, f (with_tag_rows db l) = f db) ->
  respects (keeps f) (Tag_increment ts).
Proof. intros H db; unfold keeps, Tag_increment; simpl; now rewrite H. Qed.

Lemma Tag_create_others {T} (f : database -> T) t c :
  (forall db l, f (with_tag_rows db l) = f db) ->
  respects (keeps f) (Tag_create t c).
Proof.
  intros H db; unfold keeps, Tag_create.
  destruct (existsb _ _); simpl; [reflexivity | now rewrite H].
Qed.

Lemma update_tags_others {T} (f : database -> T) self :
  (forall db l, f (with_tag_rows db l) = f db) ->
  respects (keeps f) (update_tags self).
Proof.
  intro H; unfold update_tags.
  apply respects_bind; eauto with frame.
  - now apply Tag_increment_others.
  - intros _ db.
    apply (respects_for_each (keeps f)); eauto with frame.
    intro t; destruct (mem _ _).
    + apply respects_ret; eauto with frame.
    + now apply Tag_create_others.
Qed.

Lemma for_each_tags_Ok k ts db :
  exists db', for_each (fun t => BlogEntryTag_create k (slugify t)) ts db
              = (Ok tt, db').
Proof.
  revert db; induction ts as [|t r IH]; intro db; simpl.
  - now exists db.
  - unfold bind at 1; simpl. apply IH.
Qed.

Lemma update_search_index_Ok k self db :
  exists db', update_search_index k self db = (Ok tt, db').
Proof.
  unfold update_search_index; destruct (find _ _); eauto.
Qed.

(** ** The shape of a successful [Entry.save] *)

Lemma slug_derive_slug self :
  slug (derive_slug self) = Some (effective_slug self).
Proof.
  unfold derive_slug, effective_slug, slug_unset.
  destruct (slug self) as [s|] eqn:E; simpl; [|reflexivity].
  destruct (truthy s); simpl; [assumption | reflexivity].
Qed.

Lemma Entry_save_Ok self db e db' :
  Entry_save self db = (Ok e, db') ->
  exists k db1 db2 db3,
    Model_save (derive_slug self) db = (Ok k, db1) /\
    for_each (fun t => BlogEntryTag_create k (slugify t))
      (tags (derive_slug self)) db1 = (Ok tt, db2) /\
    update_search_index k (set_id (derive_slug self) k) db2 = (Ok tt, db3) /\
    update_tags (set_id (derive_slug self) k) db3 = (Ok tt, db') /\
    e = set_id (derive_slug self) k.
Proof.
  unfold Entry_save; intro H.
  apply bind_Ok in H as (k & db1 & H1 & H).
  apply bind_Ok in H as ([] & db2 & H2 & H).
  apply bind_Ok in H as ([] & db3 & H3 & H).
  apply bind_Ok in H as ([] & db4 & H4 & H).
  inversion H; subst.
  exists k, db1, db2, db3; auto.
Qed.

Lemma Entry_save_Raise_at_row self db e :
  Model_save (derive_slug self) db = (Raise e, db) ->
  Entry_save self db = (Raise e, db).
Proof. intro H; unfold Entry_save, bind; now rewrite H. Qed.

(** ** Slug uniqueness *)

Lemma Model_save_duplicate db (e1 : EntryRow) (e2 : Entry) s :
  In e1 (entries db) ->
  slug e2 = Some s ->
  row_slug e1 = s ->
  entry_id e2 <> Some (row_id e1) ->
  (entry_id e2 = None \/
   exists r, In r (entries db) /\ entry_id e2 = Some (row_id r)) ->
  Model_save e2 db = (Raise IntegrityError, db).
Proof.
  intros Hin Hs Hslug Hne Hid; unfold Model_save; rewrite Hs.
  destruct (entry_id e2) as [k|] eqn:Ek.
  - destruct Hid as [Hid | (r & Hr & Hid)]; [discriminate Hid|].
    injection Hid as ->.
    assert (E1 : existsb (fun x => row_id x =? row_id r) (entries db) = true).
    { apply existsb_exists; exists r; split; [assumption | apply Z.eqb_refl]. }
    assert (E2 : existsb (fun x => negb (row_id x =? row_id r) &&
                                   String.eqb (row_slug x) s) (entries db)
                 = true).
    { apply existsb_exists; exists e1; split; [assumption|].
      rewrite Hslug, String.eqb_refl, andb_true_r.
      apply negb_true_iff, Z.eqb_neq; congruence. }
    now rewrite E1, E2.
  - assert (E : existsb (fun x => String.eqb (row_slug x) s) (entries db)
                = true).
    { apply existsb_exists; exists e1; split; [assumption|].
      rewrite Hslug; apply String.eqb_refl. }
    now rewrite E.
Qed.

(** C1: saving an entry [e2], new or stored, other than the stored
    entry [e1] but with the slug of [e1] (given, or derived from its
    title) raises the integrity error, and the database afterwards is
    the database before -- entry rows, tag counters, associations and
    search documents alike -- with or without the transaction. *)
Theorem C1_duplicate_slug_rejected db (e1 : EntryRow) (e2 : Entry) :
  In e1 (entries db) ->
  entry_id e2 <> Some (row_id e1) ->
  (entry_id e2 = None \/
   exists r, In r (entries db) /\ entry_id e2 = Some (row_id r)) ->
  effective_slug e2 = row_slug e1 ->
  Entry_save e2 db = (Raise IntegrityError, db) /\
  atomic (Entry_save e2) db = (Raise IntegrityError, db).
Proof.
  intros Hin Hne Hid Hslug.
  assert (H : Entry_save e2 db = (Raise IntegrityError, db)).
  { apply Entry_save_Raise_at_row.
    apply Model_save_duplicate with (e1 := e1) (s := effective_slug e2);
      auto using slug_derive_slug.
    - unfold derive_slug; destruct (slug_unset e2); assumption.
    - unfold derive_slug; destruct (slug_unset e2); assumption. }
  split; [assumption|].
  unfold atomic; now rewrite H.
Qed.

Lemma C1_duplicate_slug_rejected_witness :
  Entry_save entry_hello_again db_hello = (Raise IntegrityError, db_hello) /\
  atomic (Entry_save entry_hello_again) db_hello
  = (Raise IntegrityError, db_hello).
Proof.
  apply (C1_duplicate_slug_rejected db_hello row_hello entry_hello_again).
  - vm_compute; left; reflexivity.
  - vm_compute; discriminate.
  - left; reflexivity.
  - reflexivity.
Defined.

(** The view reports the failure and leaves the database as it was. *)
Lemma create_or_edit_duplicate db (e1 : EntryRow) entry f :
  In e1 (entries db) ->
  entry_id entry <> Some (row_id e1) ->
  (entry_id entry = None \/
   exists r, In r (entries db) /\ entry_id entry = Some (row_id r)) ->
  effective_slug (fill entry f) = row_slug e1 ->
  truthy (form_title f) = true -> truthy (form_content f) = true ->
  create_or_edit entry f db
  = (Rendered (Some "Error: this title is already in use."), db).
Proof.
  intros Hin Hne Hid Hslug Ht Hc; unfold create_or_edit; simpl.
  rewrite Ht, Hc; simpl.
  unfold atomic.
  rewrite (Entry_save_Raise_at_row (fill entry f) db IntegrityError);
    [reflexivity|].
  apply Model_save_duplicate with (e1 := e1)
                                  (s := effective_slug (fill entry f));
    auto using slug_derive_slug.
  - unfold derive_slug; destruct (slug_unset _); assumption.
  - unfold derive_slug; destruct (slug_unset _); assumption.
Qed.

(** ** Tables with a key *)

Section Keyed.

Context {A : Type} (key : A -> Z).

Lemma key_injective l a b :
  NoDup (map key l) -> In a l -> In b l -> key a = key b -> a = b.
Proof.
  induction l as [|x r IH]; simpl; [contradiction|].
  intros ND Ha Hb E; inversion ND as [|? ? Hx Hr]; subst.
  destruct Ha as [->|Ha], Hb as [->|Hb]; auto.
  - exfalso; apply Hx; rewrite E; now apply in_map.
  - exfalso; apply Hx; rewrite <- E; now apply in_map.
Qed.

Lemma filter_key_absent l k :
  ~ In k (map key l) -> filter (fun d => key d =? k) l = [].
Proof.
  induction l as [|x r IH]; simpl; [reflexivity|].
  intro H; destruct (Z.eqb_spec (key x) k) as [E|E].
  - exfalso; apply H; now left.
  - apply IH; intro; apply H; now right.
Qed.

Lemma filter_key_unique l x :
  NoDup (map key l) -> In x l ->
  filter (fun d => key d =? key x) l = [x].
Proof.
  induction l as [|a r IH]; simpl; [contradiction|].
  intros ND Hx; inversion ND as [|? ? Ha Hr]; subst.
  destruct Hx as [->|Hx].
  - rewrite Z.eqb_refl, filter_key_absent; auto.
  - destruct (Z.eqb_spec (key a) (key x)) as [E|E].
    + exfalso; apply Ha; rewrite E; now apply in_map.
    + now apply IH.
Qed.

Lemma NoDup_snoc l a :
  NoDup (map key l) -> ~ In (key a) (map key l) ->
  NoDup (map key (l ++ [a])).
Proof.
  intros ND Ha; rewrite map_app; simpl.
  apply NoDup_app; repeat split; auto.
  - constructor; [intros [] | constructor].
  - intros k Hk [<-|[]]; auto.
Qed.

End Keyed.

(** ** The full-text table *)

Lemma update_search_index_document k self db db' :
  NoDup (map docid (fts db)) ->
  NoDup (map fts_entry_id (fts db)) ->
  update_search_index k self db = (Ok tt, db') ->
  NoDup (map docid (fts db')) /\
  NoDup (map fts_entry_id (fts db')) /\
  exists d, In d (fts db') /\ fts_entry_id d = k /\
            fts_content d = search_text self.
Proof.
  intros ND1 ND2; unfold update_search_index.
  destruct (find _ _) as [d0|] eqn:F; intro H; inversion H; subst; clear H;
    simpl.
  - apply find_some in F as [Hin Hk]; apply Z.eqb_eq in Hk.
    set (g := fun d : FTSEntry => if docid d =? docid d0 then _ else d).
    assert (Hg1 : forall d, docid (g d) = docid d).
    { intro d; unfold g; destruct (docid d =? docid d0); reflexivity. }
    assert (Hg2 : forall d, In d (fts db) ->
                            fts_entry_id (g d) = fts_entry_id d).
    { intros d Hd; unfold g; destruct (Z.eqb_spec (docid d) (docid d0)) as [E|E];
        [|reflexivity].
      simpl; now rewrite (key_injective docid _ _ _ ND1 Hd Hin E). }
    repeat split.
    + rewrite map_map; erewrite map_ext; [exact ND1 | exact Hg1].
    + rewrite map_map; erewrite map_ext_in; [exact ND2 | exact Hg2].
    + exists (g d0); repeat split.
      * now apply in_map.
      * rewrite Hg2; assumption.
      * unfold g; now rewrite Z.eqb_refl.
  - assert (Hno : ~ In k (map fts_entry_id (fts db))).
    { intro Hk; apply in_map_iff in Hk as (d & E & Hd).
      pose proof (find_none _ _ F d Hd) as N; simpl in N.
      apply Z.eqb_neq in N; auto. }
    repeat split.
    + apply NoDup_snoc; [assumption | apply next_id_fresh].
    + apply NoDup_snoc; assumption.
    + eexists; split; [apply in_or_app; right; left; reflexivity|].
      split; reflexivity.
Qed.

(** ** Rows written by [Model.save] *)

Lemma Model_save_rows self db k db1 :
  Model_save self db = (Ok k, db1) ->
  exists s, slug self = Some s /\
    ((entry_id self = None /\ k = next_id (map row_id (entries db)) /\
      ~ In s (map row_slug (entries db)) /\
      entries db1 = (entries db ++ [row_of k s self])%list) \/
     (entry_id self = Some k /\
      entries db1 = map (fun r => if row_id r =? k then row_of k s self
                                  else r) (entries db))).
Proof.
  unfold Model_save; destruct (slug self) as [s|]; [|discriminate].
  destruct (entry_id self) as [k0|].
  - destruct (_ && _); [discriminate|].
    intro H; inversion H; subst; exists s; split; [reflexivity|].
    right; split; reflexivity.
  - destruct (existsb _ _) eqn:E; [discriminate|].
    intro H; inversion H; subst; exists s; split; [reflexivity|].
    left; repeat split; try reflexivity.
    intro Hs; apply in_map_iff in Hs as (r & Er & Hr).
    apply Bool.not_true_iff_false in E; apply E.
    apply existsb_exists; exists r; split; [assumption|].
    rewrite Er; apply String.eqb_refl.
Qed.

(** ** The invariant *)

Lemma well_formed_empty : well_formed empty_db.
Proof. constructor; simpl; try contradiction; constructor. Qed.

Lemma Entry_save_entries self db e db' :
  Entry_save self db = (Ok e, db') ->
  exists k db1,
    Model_save (derive_slug self) db = (Ok k, db1) /\
    e = set_id (derive_slug self) k /\
    entries db' = entries db1.
Proof.
  intro H; apply Entry_save_Ok in H
    as (k & db1 & db2 & db3 & H1 & H2 & H3 & H4 & ->).
  exists k, db1; repeat split; [assumption|].
  apply (respects_run (keeps entries)) in H2, H3, H4.
  - unfold keeps in *; congruence.
  - apply update_tags_others; reflexivity.
  - apply update_search_index_entries.
  - apply respects_for_each; eauto with frame.
    intro; apply BlogEntryTag_create_entries.
Qed.

Lemma Entry_save_document self db e db' :
  NoDup (map docid (fts db)) ->
  NoDup (map fts_entry_id (fts db)) ->
  Entry_save self db = (Ok e, db') ->
  NoDup (map docid (fts db')) /\
  NoDup (map fts_entry_id (fts db')) /\
  exists k d, entry_id e = Some k /\ In d (fts db') /\
              fts_entry_id d = k /\ fts_content d = search_text e.
Proof.
  intros ND1 ND2 H; apply Entry_save_Ok in H
    as (k & db1 & db2 & db3 & H1 & H2 & H3 & H4 & ->).
  apply (respects_run (keeps fts)) in H1, H2, H4.
  - unfold keeps in *.
    rewrite H1, H2 in ND1, ND2.
    destruct (update_search_index_document _ _ _ _ ND1 ND2 H3)
      as (N1 & N2 & d & Hd & Hk & Hc).
    rewrite <- H4; repeat split; try assumption.
    exists k, d; repeat split; assumption.
  - apply update_tags_others; reflexivity.
  - apply respects_for_each; eauto with frame.
    intro; apply BlogEntryTag_create_fts.
  - apply Model_save_fts.
Qed.

Lemma Entry_save_well_formed self db e db' :
  well_formed db -> slug_valid self ->
  Entry_save self db = (Ok e, db') ->
  well_formed db'.
Proof.
  intros [W1 W2 W3 W4] Hs H.
  destruct (Entry_save_document _ _ _ _ W3 W4 H) as (N1 & N2 & _).
  apply Entry_save_entries in H as (k & db1 & H1 & -> & E).
  assert (Hv : all_chars slug_char (effective_slug self) = true).
  { unfold effective_slug; specialize (Hs).
    destruct (slug self) as [s|] eqn:Es; [|apply slugify_slug_chars].
    destruct (truthy s); [now apply Hs | apply slugify_slug_chars]. }
  apply Model_save_rows in H1 as (s & Hslug & Hrows).
  rewrite slug_derive_slug in Hslug; injection Hslug as <-.
  constructor; try assumption; rewrite E; intros r Hr.
  - destruct Hrows as [(_ & Hk & _ & Hrows) | (_ & Hrows)];
      rewrite Hrows in Hr.
    + apply in_app_or in Hr as [Hr | [<-|[]]]; [auto|].
      subst k; simpl; apply next_id_positive.
    + apply in_map_iff in Hr as (r0 & <- & Hr0).
      destruct (Z.eqb_spec (row_id r0) k) as [<-|_]; simpl; auto.
  - destruct Hrows as [(_ & Hk & _ & Hrows) | (_ & Hrows)];
      rewrite Hrows in Hr.
    + apply in_app_or in Hr as [Hr | [<-|[]]]; [auto|].
      exact Hv.
    + apply in_map_iff in Hr as (r0 & <- & Hr0).
      destruct (row_id r0 =? k); simpl; auto.
Qed.

Lemma create_or_edit_well_formed entry f db :
  well_formed db -> slug_valid entry ->
  well_formed (snd (create_or_edit entry f db)).
Proof.
  intros W Hs; unfold create_or_edit.
  destruct (negb _); [exact W|].
  destruct (atomic _ db) as [[e|[]] db'] eqn:E; simpl.
  - apply (proj1 (atomic_Ok _ _ _ _)) in E.
    apply (Entry_save_well_formed _ _ _ _ W) in E; [assumption|].
    intros s Hslug; apply (Hs s Hslug).
  - apply atomic_Raise in E; now subst.
Qed.

Lemma handle_well_formed rq db :
  well_formed db -> well_formed (snd (handle rq db)).
Proof.
  intro W; destruct rq as [now f | s f]; simpl.
  - apply create_or_edit_well_formed; [assumption|].
    intros s Hs; discriminate Hs.
  - unfold edit; destruct (find _ _) as [r|] eqn:F; [|exact W].
    apply create_or_edit_well_formed; [assumption|].
    apply find_some in F as [Hr _].
    intros s' Hs'; injection Hs' as <-.
    now apply (wf_slugs _ W).
Qed.

Lemma reachable_well_formed db : reachable db -> well_formed db.
Proof.
  induction 1 as [|rq db _ IH];
    [apply well_formed_empty | now apply handle_well_formed].
Qed.

Lemma reachable_db_hello : reachable db_hello.
Proof. apply (reach_step (POST_create 0 form_hello)), reach_empty. Qed.

(** ** The search document *)

Lemma title_derive_slug self : title (derive_slug self) = title self.
Proof. unfold derive_slug; now destruct (slug_unset self). Qed.

Lemma content_derive_slug self : content (derive_slug self) = content self.
Proof. unfold derive_slug; now destruct (slug_unset self). Qed.

Lemma tags_derive_slug self : tags (derive_slug self) = tags self.
Proof. unfold derive_slug; now destruct (slug_unset self). Qed.

(** C3, as the code has it: after a successful save there is exactly
    one search document for the entry's id, and its text is the title,
    a newline, the content, a newline and the tag strings as given (not
    normalised) joined by commas -- written anew by each save, so that
    nothing of an earlier save is left. *)
Theorem C3_document_rebuilt self db e db' :
  reachable db ->
  Entry_save self db = (Ok e, db') ->
  exists k d,
    entry_id e = Some k /\
    documents_for k db' = [d] /\
    fts_content d =
      title self ++ newline ++ content self ++ newline ++
      String.concat "," (tags self).
Proof.
  intros R H.
  destruct (reachable_well_formed _ R) as [_ _ W3 W4].
  pose proof (Entry_save_document _ _ _ _ W3 W4 H)
    as (_ & N2 & k & d & Hk & Hd & Hdk & Hc).
  exists k, d; repeat split; [assumption | |].
  - unfold documents_for; rewrite <- Hdk.
    now apply (filter_key_unique fts_entry_id).
  - rewrite Hc.
    apply Entry_save_entries in H as (k' & _ & _ & -> & _).
    unfold search_text; simpl.
    now rewrite title_derive_slug, content_derive_slug, tags_derive_slug.
Qed.

Lemma C3_document_rebuilt_witness :
  exists k d,
    entry_id (set_id (derive_slug entry_notes) 2) = Some k /\
    documents_for k db_notes = [d] /\
    fts_content d =
      title entry_notes ++ newline ++ content entry_notes ++
      newline ++ String.concat "," (tags entry_notes).
Proof.
  apply (C3_document_rebuilt entry_notes db_hello).
  - apply (reach_step (POST_create 0 form_hello)), reach_empty.
  - vm_compute; reflexivity.
Defined.

(** The saved text of the scenario entry holds [Announce] as typed; the
    normalised tag [announce] is nowhere in it. *)
Lemma C3_normalised_tag_absent :
  ~ document_holds_normalised_tags entry_hello empty_db.
Proof.
  intro H.
  destruct (H (set_id (derive_slug entry_hello) 1) db_hello eq_refl)
    as (k & d & Hk & Hd & _ & _ & Ht).
  injection Hk as <-.
  vm_compute in Hd; injection Hd as <-.
  specialize (Ht "Announce" (or_introl eq_refl)).
  vm_compute in Ht; discriminate Ht.
Qed.

(** ** Search and the listings *)

Lemma In_insert_desc (x h : hit) l :
  In x (insert_desc h l) -> x = h \/ In x l.
Proof.
  induction l as [|h' r IH]; simpl.
  - intros [<-|[]]; now left.
  - destruct (score h' <? score h); simpl.
    + intros [<-|H]; auto.
    + intros [<-|H]; auto.
      destruct (IH H); auto.
Qed.

Lemma In_order_by_score_desc (x : hit) l :
  In x (order_by_score_desc l) -> In x l.
Proof.
  induction l as [|h r IH]; simpl; [trivial|].
  intro H; apply In_insert_desc in H as [->|H]; auto.
Qed.

Section SearchFacts.

Variable fts_match : string -> FTSEntry -> bool.
Variable fts_rank : string -> FTSEntry -> Z.

Lemma search_lists_published q db e :
  well_formed db ->
  In e (result_entries (search fts_match fts_rank q db)) ->
  row_published e = true.
Proof.
  intros W; unfold search.
  destruct (search_words q) as [|w ws]; simpl.
  - intro H; apply filter_In in H as [Hin H0].
    apply Z.eqb_eq in H0.
    pose proof (wf_ids _ W _ Hin); lia.
  - intro H; apply in_map_iff in H as ([[d r] sc] & <- & H); simpl.
    apply In_order_by_score_desc, in_flat_map in H as (d' & _ & H).
    apply in_map_iff in H as (r' & E & H); inversion E; subst.
    apply filter_In in H as [_ H].
    apply andb_prop in H as [H _]; apply andb_prop in H as [_ H].
    exact H.
Qed.

Lemma search_blank_query q db :
  well_formed db -> search_words q = [] ->
  search fts_match fts_rank q db = Blank_query [].
Proof.
  intros W E; unfold search; rewrite E; f_equal.
  destruct (filter _ _) as [|r l] eqn:F; [reflexivity|].
  assert (H : In r (filter (fun r => row_id r =? 0) (entries db)))
    by (rewrite F; now left).
  apply filter_In in H as [Hin H0]; apply Z.eqb_eq in H0.
  pose proof (wf_ids _ W _ Hin); lia.
Qed.

End SearchFacts.

(** C4: an unpublished entry is in no search result, whatever the query
    and whatever the full-text engine matches, and it is in the list of
    drafts. *)
Theorem C4_search_excludes_drafts
    (fts_match : string -> FTSEntry -> bool)
    (fts_rank : string -> FTSEntry -> Z) q db e :
  reachable db ->
  In e (entries db) ->
  row_published e = false ->
  ~ In e (result_entries (search fts_match fts_rank q db)) /\
  In e (drafts db).
Proof.
  intros R Hin Hp; split.
  - intro H.
    apply search_lists_published in H;
      [congruence | now apply reachable_well_formed].
  - unfold drafts; apply filter_In; split; [assumption|].
    now rewrite Hp.
Qed.

Lemma C4_search_excludes_drafts_witness :
  ~ In row_notes
      (result_entries (search substring_match flat_rank "ready" db_notes)) /\
  In row_notes (drafts db_notes).
Proof.
  apply (C4_search_excludes_drafts substring_match flat_rank "ready"
           db_notes row_notes).
  - apply (reach_step (POST_create 7 form_notes)), reachable_db_hello.
  - vm_compute; right; left; reflexivity.
  - reflexivity.
Defined.

(** C5: a query made of blank characters only -- the empty query
    included, and the blank characters of Unicode as well as those of
    ASCII -- tokenises to no word, and [search] then answers with the
    empty sequence: no error, and not the list of all entries. *)
Theorem C5_blank_query_empty
    (fts_match : string -> FTSEntry -> bool)
    (fts_rank : string -> FTSEntry -> Z) q db :
  reachable db ->
  all_blank q = true ->
  search_words q = [] /\
  search fts_match fts_rank q db = Blank_query [] /\
  result_entries (search fts_match fts_rank q db) = [].
Proof.
  intros R Hq.
  pose proof (search_words_blank q Hq) as E.
  pose proof (search_blank_query fts_match fts_rank q db
                (reachable_well_formed _ R) E) as H.
  rewrite H; auto.
Qed.

Lemma C5_blank_query_empty_witness :
  search_words blank_query = [] /\
  search substring_match flat_rank blank_query db_notes = Blank_query [] /\
  result_entries (search substring_match flat_rank blank_query db_notes)
  = [].
Proof.
  apply (C5_blank_query_empty substring_match flat_rank blank_query
           db_notes).
  - apply (reach_step (POST_create 7 form_notes)), reachable_db_hello.
  - reflexivity.
Defined.

Example search_blank_examples :
  search substring_match flat_rank "" db_notes = Blank_query [] /\
  search substring_match flat_rank "   " db_notes = Blank_query [].
Proof. split; reflexivity. Qed.

(** ** The slug as runs of word characters *)

Lemma rstrip_cons_kept p c u :
  p c = false -> rstrip p (String c u) = String c (rstrip p u).
Proof. intro H; simpl; destruct (rstrip p u); now rewrite ?H. Qed.

Lemma strip_sub_runs b s :
  strip is_hyphen (sub_runs b s) = rstrip is_hyphen (sub_runs true s).
Proof.
  unfold strip; revert b; induction s as [|c r IH]; intro b;
    [reflexivity|].
  cbn [sub_runs]; destruct (is_word c) eqn:W.
  - cbn [lstrip]; now rewrite (word_not_hyphen _ W).
  - destruct b; [apply IH|].
    cbn [lstrip]; change (is_hyphen "-"%char) with true; cbn iota.
    apply IH.
Qed.

Lemma concat_cons_char c w ws :
  String.concat "-" (String c w :: ws)
  = String c (String.concat "-" (w :: ws)).
Proof. destruct ws; reflexivity. Qed.

Lemma word_runs_not_empty s : ~ In EmptyString (word_runs s).
Proof.
  induction s as [|c r IH]; simpl; [tauto|].
  destruct (is_word c); [|exact IH].
  destruct (first_char r) as [d|]; [|intros [H|[]]; discriminate H].
  destruct (is_word d).
  - destruct (word_runs r) as [|w ws]; intros [H|H]; try discriminate H;
      try contradiction.
    apply IH; now right.
  - intros [H|H]; [discriminate H | now apply IH].
Qed.

Lemma concat_word_runs_empty s :
  String.concat "-" (word_runs s) = EmptyString -> word_runs s = [].
Proof.
  pose proof (word_runs_not_empty s) as N.
  destruct (word_runs s) as [|w ws]; [reflexivity|]; intro H; exfalso.
  destruct w as [|a w]; [apply N; now left|].
  rewrite concat_cons_char in H; discriminate H.
Qed.

(** In what [re.sub] leaves, without the hyphens at the end, the runs
    of word characters are joined by one hyphen each; a scan that
    starts outside a run begins with a hyphen when a word follows. *)
Lemma rstrip_sub_runs_runs s :
  rstrip is_hyphen (sub_runs true s) = String.concat "-" (word_runs s) /\
  rstrip is_hyphen (sub_runs false s)
  = match first_char s with
    | Some d =>
        if is_word d then String.concat "-" (word_runs s)
        else match String.concat "-" (word_runs s) with
             | EmptyString => EmptyString
             | j => String "-"%char j
             end
    | None => String.concat "-" (word_runs s)
    end.
Proof.
  induction s as [|c r [IHt IHf]]; [split; reflexivity|].
  cbn [sub_runs word_runs first_char]; destruct (is_word c) eqn:W.
  - assert (E : rstrip is_hyphen (String c (sub_runs false r))
                = String.concat "-"
                    match first_char r with
                    | Some d =>
                        if is_word d
                        then match word_runs r with
                             | w :: ws => String c w :: ws
                             | [] => [String c EmptyString]
                             end
                        else String c EmptyString :: word_runs r
                    | None => [String c EmptyString]
                    end).
    { rewrite (rstrip_cons_kept _ _ _ (word_not_hyphen _ W)), IHf.
      destruct (first_char r) as [d|] eqn:F.
      - destruct (is_word d).
        + destruct (word_runs r) as [|w ws]; [reflexivity|].
          now rewrite concat_cons_char.
        + destruct (String.concat "-" (word_runs r)) as [|a j] eqn:J.
          * now rewrite (concat_word_runs_empty _ J).
          * destruct (word_runs r) as [|w ws]; [discriminate J|].
            change (String.concat "-" (String c EmptyString :: w :: ws))
              with (String c EmptyString ++ "-" ++
                    String.concat "-" (w :: ws)).
            now rewrite J.
      - destruct r; [reflexivity | discriminate F]. }
    split; exact E.
  - split; [exact IHt|].
    cbn [rstrip]; rewrite IHt.
    now destruct (String.concat "-" (word_runs r)).
Qed.

(** The slug of a title is the runs of word characters of the
    lower-cased title, joined by single hyphens. *)
Lemma slugify_word_runs t :
  slugify t = String.concat "-" (word_runs (lower t)).
Proof.
  unfold slugify, re_sub_nonword.
  rewrite strip_sub_runs; apply rstrip_sub_runs_runs.
Qed.

(** C6, as the code has it: the slug derived for an entry without one
    is its title lower-cased first, then with each maximal run of
    non-word characters replaced by one hyphen and the hyphens at both
    ends stripped -- the runs of word characters of the lower-cased
    title, joined by single hyphens; every slug stored by the
    application holds word characters and hyphens only; and the title
    "Hello, World!" gives "hello-world". *)
Theorem C6_slug_generation :
  (forall self, slug_unset self = true ->
     slug (derive_slug self)
     = Some (String.concat "-" (word_runs (lower (title self))))) /\
  (forall db r, reachable db -> In r (entries db) ->
     all_chars slug_char (row_slug r) = true) /\
  slugify "Hello, World!" = "hello-world".
Proof.
  repeat split.
  - intros self H; unfold derive_slug; rewrite H; simpl.
    now rewrite slugify_word_runs.
  - intros db r R Hin.
    exact (wf_slugs _ (reachable_well_formed _ R) r Hin).
Qed.

Lemma C6_slug_generation_witness :
  slug (derive_slug entry_kelvin)
  = Some (String.concat "-" (word_runs (lower (title entry_kelvin))))
  /\ all_chars slug_char (row_slug row_notes) = true.
Proof.
  destruct C6_slug_generation as (H1 & H2 & _); split.
  - apply (H1 entry_kelvin); reflexivity.
  - apply (H2 db_notes row_notes).
    + apply (reach_step (POST_create 7 form_notes)),
        (reach_step (POST_create 0 form_hello)), reach_empty.
    + vm_compute; right; left; reflexivity.
Defined.

(** A title that begins with the Kelvin sign: lower-casing first makes
    the sign the letter [k], which stays in the slug; replacing first
    makes it a hyphen, which is stripped. *)
Lemma C6_kelvin_title_slug : ~ slug_as_worded entry_kelvin.
Proof.
  intro H; specialize (H eq_refl).
  vm_compute in H; discriminate H.
Qed.

Example kelvin_slug_stored :
  map row_slug (entries (snd (Entry_save entry_kelvin empty_db)))
  = ["kelvin"] /\
  word_runs (lower "Hello, World!") = ["hello"; "world"] /\
  slugify "-- Hello,  big_World 2 --" = "hello-big_world-2".
Proof. repeat split. Qed.

Example search_first_post :
  result_entries (search substring_match flat_rank "first" db_notes)
  = [row_hello].
Proof. reflexivity. Qed.

(** ** Tag counters *)

Lemma respects_weaken (R R' : database -> database -> Prop) {A} (m : Tx A) :
  (forall a b, R a b -> R' a b) -> respects R m -> respects R' m.
Proof. intros H Hm db; apply H, Hm. Qed.

Lemma counts_grow_refl db : counts_grow db db.
Proof. intros r Hr; exists r; repeat split; auto; lia. Qed.

Lemma counts_grow_trans a b c :
  counts_grow a b -> counts_grow b c -> counts_grow a c.
Proof.
  intros H1 H2 r Hr.
  destruct (H1 r Hr) as (r1 & Hr1 & I1 & T1 & C1).
  destruct (H2 r1 Hr1) as (r2 & Hr2 & I2 & T2 & C2).
  exists r2; repeat split; try congruence; lia.
Qed.

Lemma keeps_counts_grow a b : keeps tag_rows a b -> counts_grow a b.
Proof.
  unfold keeps; intros E r Hr; exists r; rewrite <- E.
  repeat split; auto; lia.
Qed.

Lemma appends_ones_refl db : appends_ones db db.
Proof. exists []; split; [now rewrite app_nil_r | constructor]. Qed.

Lemma appends_ones_trans a b c :
  appends_ones a b -> appends_ones b c -> appends_ones a c.
Proof.
  intros (n1 & E1 & F1) (n2 & E2 & F2); exists (n1 ++ n2)%list; split.
  - now rewrite E2, E1, app_assoc.
  - apply Forall_app; auto.
Qed.

Lemma Tag_increment_counts_grow ts : respects counts_grow (Tag_increment ts).
Proof.
  intros db r Hr; unfold Tag_increment; simpl.
  exists (if mem (tag r) ts then bump r else r); split.
  - apply in_map_iff; now exists r.
  - destruct (mem (tag r) ts); simpl; repeat split; lia.
Qed.

Lemma Tag_create_appends_ones t : respects appends_ones (Tag_create t 1).
Proof.
  intro db; unfold Tag_create; destruct (existsb _ _); simpl.
  - apply appends_ones_refl.
  - eexists; split; [reflexivity|]. repeat constructor.
Qed.

Lemma appends_ones_counts_grow a b : appends_ones a b -> counts_grow a b.
Proof.
  intros (new & E & _) r Hr; exists r; rewrite E.
  repeat split; [apply in_or_app; now left | lia].
Qed.

(** The loop of [update_tags] only appends rows of count 1. *)
Lemma update_tags_loop_appends existing ts :
  respects appends_ones
    (for_each (fun t => if mem (slugify t) existing then ret tt
                        else Tag_create (slugify t) 1) ts).
Proof.
  apply (respects_for_each _ appends_ones_refl appends_ones_trans).
  intro t; destruct (mem _ _).
  - apply respects_ret, appends_ones_refl.
  - apply Tag_create_appends_ones.
Qed.

(** [update_tags], whether it raises or not, leaves the tag table as the
    old rows, those named in the raw tag list incremented once, followed
    by new rows of count 1. *)
Lemma update_tags_shape self db :
  exists new,
    tag_rows (snd (update_tags self db)) =
      (map (fun r => if mem (tag r) (tags self) then bump r else r)
         (tag_rows db) ++ new)%list /\
    Forall (fun r => count r = 1) new.
Proof.
  unfold update_tags, bind; simpl.
  match goal with
  | |- context [for_each ?b ?ts ?d] =>
      pose proof (update_tags_loop_appends
                    (Tag_select_in (tags self) d) ts d) as H
  end.
  simpl in H; exact H.
Qed.

Lemma update_tags_counts_grow self : respects counts_grow (update_tags self).
Proof.
  intros db r Hr.
  destruct (update_tags_shape self db) as (new & E & _); rewrite E.
  exists (if mem (tag r) (tags self) then bump r else r); split.
  - apply in_or_app; left; apply in_map_iff; now exists r.
  - destruct (mem (tag r) (tags self)); simpl; repeat split; lia.
Qed.

Lemma update_tags_counts_start_at_one self db :
  counts_start_at_one db (snd (update_tags self db)).
Proof.
  intros r' Hr'.
  destruct (update_tags_shape self db) as (new & E & F); rewrite E in Hr'.
  apply in_app_or in Hr' as [Hr' | Hr'].
  - left; apply in_map_iff in Hr' as (r & <- & Hr); exists r.
    destruct (mem (tag r) (tags self)); simpl; repeat split; auto; lia.
  - right; rewrite Forall_forall in F; now apply F.
Qed.

Ltac seq_grow := apply (respects_bind _ counts_grow_trans).

Lemma Entry_save_counts_grow self : respects counts_grow (Entry_save self).
Proof.
  unfold Entry_save.
  seq_grow.
  - apply (respects_weaken _ _ _ keeps_counts_grow), Model_save_tag_rows.
  - intro k; seq_grow; [|intros _; seq_grow; [|intros _; seq_grow]].
    + apply (respects_for_each _ counts_grow_refl counts_grow_trans).
      intro t; apply (respects_weaken _ _ _ keeps_counts_grow),
        BlogEntryTag_create_tag_rows.
    + apply (respects_weaken _ _ _ keeps_counts_grow),
        update_search_index_tag_rows.
    + apply update_tags_counts_grow.
    + intros _; apply respects_ret, counts_grow_refl.
Qed.

Lemma counts_start_at_one_refl db : counts_start_at_one db db.
Proof. intros r Hr; left; exists r; repeat split; auto; lia. Qed.

(** The tag table after [Entry.save] is the old one, when the save
    raised before [update_tags], or what [update_tags] made of it. *)
Lemma Entry_save_tag_rows self db :
  tag_rows (snd (Entry_save self db)) = tag_rows db \/
  exists self' db3,
    tag_rows db3 = tag_rows db /\ tags self' = tags self /\
    tag_rows (snd (Entry_save self db))
    = tag_rows (snd (update_tags self' db3)).
Proof.
  unfold Entry_save, bind.
  destruct (Model_save _ db) as [[k|e] db1] eqn:E1;
    apply (respects_run (keeps tag_rows)) in E1;
    try apply Model_save_tag_rows; unfold keeps in E1; [|now left].
  destruct (for_each _ _ db1) as [[[]|e] db2] eqn:E2;
    apply (respects_run (keeps tag_rows)) in E2;
    try (apply respects_for_each; eauto with frame;
         intro; apply BlogEntryTag_create_tag_rows);
    unfold keeps in E2; [|left; simpl; congruence].
  destruct (update_search_index _ _ db2) as [[[]|e] db3] eqn:E3;
    apply (respects_run (keeps tag_rows)) in E3;
    try apply update_search_index_tag_rows;
    unfold keeps in E3; [|left; simpl; congruence].
  right; exists (set_id (derive_slug self) k), db3; repeat split.
  - congruence.
  - simpl; apply tags_derive_slug.
  - destruct (update_tags _ db3) as [[[]|e] db4]; reflexivity.
Qed.

Lemma Entry_save_counts_start_at_one self db :
  counts_start_at_one db (snd (Entry_save self db)).
Proof.
  destruct (Entry_save_tag_rows self db)
    as [E | (self' & db3 & E3 & _ & E)]; intros r' Hr'; rewrite E in Hr'.
  - left; exists r'; repeat split; auto; lia.
  - rewrite <- E3; now apply (update_tags_counts_start_at_one self' db3).
Qed.

Lemma create_or_edit_cases entry f db :
  snd (create_or_edit entry f db) = db \/
  snd (create_or_edit entry f db) = snd (Entry_save (fill entry f) db).
Proof.
  unfold create_or_edit, atomic.
  destruct (negb _); [now left|].
  destruct (Entry_save _ db) as [[e|[]] db']; simpl; auto.
Qed.

Lemma handle_cases rq db :
  snd (handle rq db) = db \/
  exists self, snd (handle rq db) = snd (Entry_save self db).
Proof.
  destruct rq as [now f | s f]; simpl.
  - unfold create.
    destruct (create_or_edit_cases
                {| entry_id := None; title := ""; slug := None;
                   content := ""; published := false; timestamp := now;
                   tags := [] |} f db) as [E|E]; eauto.
  - unfold edit; destruct (find _ _) as [r|]; [|now left].
    destruct (create_or_edit_cases (entry_of_row r) f db); eauto.
Qed.

Section Operations.

Variable fts_match : string -> FTSEntry -> bool.
Variable fts_rank : string -> FTSEntry -> Z.

Lemma run_cases op db :
  snd (run fts_match fts_rank op db) = db \/
  exists self,
    snd (run fts_match fts_rank op db) = snd (Entry_save self db).
Proof.
  destruct op as [self | rq | | | q | t]; simpl; auto.
  - right; exists self; now destruct (Entry_save self db).
  - destruct (handle rq db) as [r db'] eqn:E; simpl.
    pose proof (handle_cases rq db) as H; now rewrite E in H.
Qed.

Lemma run_counts_grow op db :
  counts_grow db (snd (run fts_match fts_rank op db)).
Proof.
  destruct (run_cases op db) as [-> | (self & ->)].
  - apply counts_grow_refl.
  - apply Entry_save_counts_grow.
Qed.

Lemma run_counts_start_at_one op db :
  counts_start_at_one db (snd (run fts_match fts_rank op db)).
Proof.
  destruct (run_cases op db) as [-> | (self & ->)].
  - apply counts_start_at_one_refl.
  - apply Entry_save_counts_start_at_one.
Qed.

Lemma run_all_counts_grow ops db :
  counts_grow db (run_all fts_match fts_rank ops db).
Proof.
  revert db; induction ops as [|op r IH]; intro db; simpl.
  - apply counts_grow_refl.
  - eapply counts_grow_trans; [apply run_counts_grow | apply IH].
Qed.

End Operations.

(** C10: over any sequence of operations of the core -- a bare
    [Entry.save], a posted create or edit, the public and draft
    listings, a search, a tag listing -- every row of the tag table is
    still there afterwards, under the same token, with a count at least
    as large; and in one operation each counter either continues an
    earlier one or is 1. *)
Theorem C10_counts_never_decrease
    (fts_match : string -> FTSEntry -> bool)
    (fts_rank : string -> FTSEntry -> Z) :
  (forall ops db, counts_grow db (run_all fts_match fts_rank ops db)) /\
  (forall op db,
     counts_start_at_one db (snd (run fts_match fts_rank op db))).
Proof.
  split.
  - apply run_all_counts_grow.
  - apply run_counts_start_at_one.
Qed.

(** ** Saving the same object again *)

Lemma derive_slug_saved self k :
  derive_slug (set_id (derive_slug self) k) = set_id (derive_slug self) k.
Proof.
  unfold derive_slug at 1; unfold slug_unset; simpl.
  rewrite slug_derive_slug.
  destruct (truthy (effective_slug self)) eqn:T; simpl; [reflexivity|].
  unfold set_slug, set_id; simpl.
  rewrite title_derive_slug; f_equal.
  rewrite slug_derive_slug; f_equal.
  unfold effective_slug in *.
  destruct (slug self) as [s|]; [|reflexivity].
  destruct (truthy s) eqn:Ts; [congruence | reflexivity].
Qed.

Lemma existsb_map_same {A} (p : A -> bool) (g : A -> A) l :
  (forall x, p (g x) = p x) -> existsb p (map g l) = existsb p l.
Proof.
  intro H; induction l as [|x r IH]; simpl; [reflexivity|].
  now rewrite H, IH.
Qed.

(** The row write that succeeded succeeds again for the object it left,
    on any database holding the rows it wrote. *)
Lemma Model_save_again self db k db1 db' :
  Model_save self db = (Ok k, db1) ->
  entries db' = entries db1 ->
  exists db2, Model_save (set_id self k) db' = (Ok k, db2).
Proof.
  intros H E.
  assert (Hc : forall s, slug self = Some s ->
            existsb (fun r => row_id r =? k) (entries db1) &&
            existsb (fun r => negb (row_id r =? k) &&
                              String.eqb (row_slug r) s) (entries db1)
            = false).
  { intros s Hs; revert H; unfold Model_save; rewrite Hs.
    destruct (entry_id self) as [k0|].
    - destruct (existsb _ (entries db) && existsb _ (entries db)) eqn:C;
        [discriminate|].
      intro H; inversion H; subst; simpl.
      rewrite <- C; f_equal.
      + apply existsb_map_same; intro r.
        destruct (row_id r =? k) eqn:Ek; simpl;
          rewrite ?Z.eqb_refl, ?Ek; reflexivity.
      + apply existsb_map_same; intro r.
        destruct (row_id r =? k) eqn:Ek; simpl;
          rewrite ?Z.eqb_refl, ?Ek; reflexivity.
    - destruct (existsb _ (entries db)) eqn:C; [discriminate|].
      intro H; inversion H; subst; simpl.
      apply andb_false_iff; right.
      rewrite existsb_app; simpl.
      rewrite Z.eqb_refl; simpl; rewrite orb_false_r.
      apply Bool.not_true_iff_false; intro X.
      apply existsb_exists in X as (r & Hr & X).
      apply andb_prop in X as [_ X].
      apply Bool.not_true_iff_false in C; apply C.
      apply existsb_exists; now exists r. }
  apply Model_save_rows in H as (s & Hs & _).
  unfold Model_save; simpl; rewrite Hs, E, (Hc s Hs); eauto.
Qed.

Lemma for_each_skip {A} (body : A -> Tx unit) xs db :
  (forall x, In x xs -> body x db = (Ok tt, db)) ->
  for_each body xs db = (Ok tt, db).
Proof.
  induction xs as [|x r IH]; intro H; simpl; [reflexivity|].
  unfold bind; rewrite (H x (or_introl eq_refl)).
  apply IH; intros y Hy; apply H; now right.
Qed.

Lemma In_Tag_select_in t ts db :
  In t (Tag_select_in ts db) <->
  In t ts /\ exists r, In r (tag_rows db) /\ tag r = t.
Proof.
  unfold Tag_select_in; rewrite in_map_iff; split.
  - intros (r & <- & Hr); apply filter_In in Hr as [Hr M].
    apply mem_In in M; eauto.
  - intros (Ht & r & Hr & <-); exists r; split; [reflexivity|].
    apply filter_In; split; [assumption | now apply mem_In].
Qed.

(** When every tag of the list, normalised, is the token of a row that
    the raw list names, nothing is created: the rows named are
    incremented and that is all. *)
Lemma update_tags_all_present self db :
  (forall t, In t (tags self) ->
     In (slugify t) (tags self) /\
     exists r, In r (tag_rows db) /\ tag r = slugify t) ->
  update_tags self db =
  (Ok tt,
   with_tag_rows db
     (map (fun r => if mem (tag r) (tags self) then bump r else r)
        (tag_rows db))).
Proof.
  intro H; unfold update_tags, bind, Tag_increment; simpl.
  apply for_each_skip; intros t Ht.
  destruct (H t Ht) as (Hin & r & Hr & Er).
  assert (M : mem (slugify t)
                (Tag_select_in (tags self)
                   (with_tag_rows db
                      (map (fun r => if mem (tag r) (tags self)
                                     then bump r else r) (tag_rows db))))
              = true).
  { apply mem_In, In_Tag_select_in; split; [assumption|].
    exists (bump r); split; [|exact Er].
    simpl; apply in_map_iff; exists r; split; [|assumption].
    rewrite Er; apply mem_In in Hin; now rewrite Hin. }
  now rewrite M.
Qed.

Lemma appends_ones_keeps_tokens db db' r :
  appends_ones db db' -> In r (tag_rows db) -> In r (tag_rows db').
Proof. intros (new & E & _) H; rewrite E; apply in_or_app; now left. Qed.

(** After the loop of [update_tags] ran to its end, the normalised form
    of every tag was among the rows selected or is the token of a row. *)
Lemma update_tags_loop_present existing ts db db' :
  for_each (fun t => if mem (slugify t) existing then ret tt
                     else Tag_create (slugify t) 1) ts db = (Ok tt, db') ->
  forall t, In t ts ->
    In (slugify t) existing \/
    exists r, In r (tag_rows db') /\ tag r = slugify t.
Proof.
  revert db; induction ts as [|t0 r0 IH]; intros db H t Ht;
    [contradiction|].
  simpl in H; apply bind_Ok in H as ([] & dbY & H0 & H).
  destruct Ht as [<-|Ht]; [|now apply (IH dbY)].
  destruct (mem (slugify t0) existing) eqn:M; [left; now apply mem_In|].
  right; unfold Tag_create in H0.
  destruct (existsb _ _); [discriminate|]; inversion H0; subst; clear H0.
  exists {| tag_id := next_id (map tag_id (tag_rows db));
            tag := slugify t0; count := 1 |}.
  split; [|reflexivity].
  eapply appends_ones_keeps_tokens.
  - exact (respects_run appends_ones _ _ _ _
             (update_tags_loop_appends existing r0) H).
  - simpl; apply in_or_app; right; left; reflexivity.
Qed.

Lemma update_tags_Ok_present self db db' :
  update_tags self db = (Ok tt, db') ->
  forall t, In t (tags self) ->
    exists r, In r (tag_rows db') /\ tag r = slugify t.
Proof.
  unfold update_tags; intros H t Ht.
  apply bind_Ok in H as ([] & dbi & _ & H).
  destruct (update_tags_loop_present _ _ _ _ H t Ht) as [Hin | Hr];
    [|assumption].
  apply In_Tag_select_in in Hin as (_ & r & Hr & Er).
  exists r; split; [|assumption].
  apply (appends_ones_keeps_tokens dbi); [|assumption].
  exact (respects_run appends_ones _ _ _ _
           (update_tags_loop_appends _ _) H).
Qed.

(** C2, as the code has it: when an entry was saved with a tag list
    whose tags are all typed in normalised form, saving the object
    again with that list succeeds, increments by one the count of every
    tag row whose token is in the list -- each of the entry's tags has
    such a row -- and leaves the other rows as they were.  Nothing is
    said here of tags typed otherwise. *)
Theorem C2_resave_increments self db e1 db1 :
  Entry_save self db = (Ok e1, db1) ->
  (forall t, In t (tags self) -> slugify t = t) ->
  exists db2,
    Entry_save e1 db1 = (Ok e1, db2) /\
    tag_rows db2 =
      map (fun r => if mem (tag r) (tags self) then bump r else r)
        (tag_rows db1) /\
    forall t, In t (tags self) ->
      exists r, In r (tag_rows db1) /\ tag r = t.
Proof.
  intros H Hnorm.
  apply Entry_save_Ok in H
    as (k & dbA & dbB & dbC & H1 & H2 & H3 & H4 & ->).
  set (e1 := set_id (derive_slug self) k) in *.
  assert (Etags : tags e1 = tags self) by apply tags_derive_slug.
  assert (Hrows : forall t, In t (tags self) ->
                    exists r, In r (tag_rows db1) /\ tag r = t).
  { intros t Ht.
    destruct (update_tags_Ok_present _ _ _ H4 t) as (r & Hr & Er).
    - now rewrite Etags.
    - exists r; split; [assumption|]. now rewrite Er, Hnorm. }
  assert (EA : entries db1 = entries dbA).
  { apply (respects_run (keeps entries)) in H2, H3, H4.
    - unfold keeps in *; congruence.
    - apply update_tags_others; reflexivity.
    - apply update_search_index_entries.
    - apply respects_for_each; eauto with frame.
      intro; apply BlogEntryTag_create_entries. }
  destruct (Model_save_again _ _ _ _ db1 H1 EA) as (d1 & S1).
  change (Model_save e1 db1 = (Ok k, d1)) in S1.
  destruct (for_each_tags_Ok k (tags e1) d1) as (d2 & S2).
  destruct (update_search_index_Ok k e1 d2) as (d3 & S3).
  assert (ET : tag_rows d3 = tag_rows db1).
  { apply (respects_run (keeps tag_rows)) in S1, S2, S3.
    - unfold keeps in *; congruence.
    - apply update_search_index_tag_rows.
    - apply respects_for_each; eauto with frame.
      intro; apply BlogEntryTag_create_tag_rows.
    - apply Model_save_tag_rows. }
  assert (S4 := update_tags_all_present e1 d3).
  rewrite Etags, ET in S4.
  eexists; repeat split; [| |exact Hrows].
  - assert (De : derive_slug e1 = e1) by apply derive_slug_saved.
    unfold Entry_save; rewrite De.
    unfold bind; rewrite S1.
    replace (set_id e1 k) with e1 by reflexivity.
    rewrite S2, S3, S4; [reflexivity|].
    intros t Ht; rewrite (Hnorm t Ht); split; [assumption|].
    now apply Hrows.
  - reflexivity.
Qed.

Lemma C2_resave_increments_witness :
  exists db2,
    Entry_save (set_id (derive_slug entry_announce) 1) db_announce
    = (Ok (set_id (derive_slug entry_announce) 1), db2) /\
    tag_rows db2 =
      map (fun r => if mem (tag r) (tags entry_announce) then bump r else r)
        (tag_rows db_announce) /\
    forall t, In t (tags entry_announce) ->
      exists r, In r (tag_rows db_announce) /\ tag r = t.
Proof.
  apply (C2_resave_increments entry_announce empty_db).
  - reflexivity.
  - intros t [<-|[]]; reflexivity.
Defined.

(** The entry tagged [announce], saved and saved again: the count is 1
    after the first save and 2 after the second. *)
Lemma C2_resave_counts_twice : ~ resave_keeps_counts entry_announce empty_db.
Proof.
  intro H.
  specialize (H (set_id (derive_slug entry_announce) 1) db_announce eq_refl).
  vm_compute in H; discriminate H.
Qed.

Example count_after_resave :
  count_of "announce" db_announce = Some 1 /\
  count_of "announce"
    (snd (Entry_save (set_id (derive_slug entry_announce) 1) db_announce))
  = Some 2.
Proof. split; reflexivity. Qed.

(** ** The empty slug *)

Lemma Entry_save_entries_after_row self db k dbA :
  Model_save (derive_slug self) db = (Ok k, dbA) ->
  entries (snd (Entry_save self db)) = entries dbA.
Proof.
  intro H; unfold Entry_save; unfold bind at 1; rewrite H.
  symmetry.
  match goal with
  | |- entries dbA = entries (snd (?m dbA)) =>
      change (keeps entries dbA (snd (m dbA)));
      assert (R : respects (keeps entries) m); [|apply R]
  end.
  apply respects_bind; eauto with frame.
  - apply respects_for_each; eauto with frame.
    intro; apply BlogEntryTag_create_entries.
  - intros _; apply respects_bind; eauto with frame.
    + apply update_search_index_entries.
    + intros _; apply respects_bind; eauto with frame.
      * apply update_tags_others; reflexivity.
      * intros _; apply respects_ret; eauto with frame.
Qed.

Lemma Model_save_empty_slug self db :
  entry_id self = None ->
  slug_unset self = true ->
  slugify (title self) = "" ->
  (forall r, In r (entries db) -> row_slug r <> "") ->
  let k := next_id (map row_id (entries db)) in
  Model_save (derive_slug self) db
  = (Ok k, with_entries db (entries db ++ [row_of k "" (derive_slug self)])).
Proof.
  intros Hid Hu Ht Hno; unfold derive_slug; rewrite Hu, Ht.
  unfold Model_save; simpl; rewrite Hid.
  destruct (existsb _ _) eqn:E; [|reflexivity].
  apply existsb_exists in E as (r & Hr & E).
  apply String.eqb_eq in E; now apply Hno in Hr.
Qed.

(** C7, as the code has it: an empty derived slug is not a reason to
    reject a save.  For a new entry whose title gives the empty slug,
    on a database where no entry has the empty slug, the entry row is
    written with the empty slug, and every save that completes in its
    transaction commits that row. *)
Theorem C7_empty_slug_persisted self db :
  entry_id self = None ->
  slug_unset self = true ->
  slugify (title self) = "" ->
  (forall r, In r (entries db) -> row_slug r <> "") ->
  (exists r, In r (entries (snd (Entry_save self db))) /\
             row_slug r = "" /\ row_title r = title self) /\
  (forall e db', atomic (Entry_save self) db = (Ok e, db') ->
     slug e = Some "" /\
     exists r, In r (entries db') /\ row_slug r = "" /\
               entry_id e = Some (row_id r)).
Proof.
  intros Hid Hu Ht Hno.
  pose proof (Model_save_empty_slug self db Hid Hu Ht Hno) as M; simpl in M.
  pose proof (Entry_save_entries_after_row _ _ _ _ M) as E; simpl in E.
  split.
  - eexists; rewrite E; split; [apply in_or_app; right; left; reflexivity|].
    split; [reflexivity | apply title_derive_slug].
  - intros e db' H; apply (proj1 (atomic_Ok _ _ _ _)) in H.
    assert (E' : entries db' = entries (snd (Entry_save self db)))
      by now rewrite H.
    apply Entry_save_entries in H as (k & dbA & H1 & -> & _).
    rewrite M in H1; inversion H1; subst; clear H1.
    split.
    + simpl; unfold derive_slug; rewrite Hu, Ht; reflexivity.
    + eexists; rewrite E', E; split;
        [apply in_or_app; right; left; reflexivity|].
      split; reflexivity.
Qed.

Lemma C7_empty_slug_persisted_witness :
  (exists r, In r (entries (snd (Entry_save entry_punctuation db_hello))) /\
             row_slug r = "" /\ row_title r = title entry_punctuation) /\
  (forall e db',
     atomic (Entry_save entry_punctuation) db_hello = (Ok e, db') ->
     slug e = Some "" /\
     exists r, In r (entries db') /\ row_slug r = "" /\
               entry_id e = Some (row_id r)).
Proof.
  apply (C7_empty_slug_persisted entry_punctuation db_hello).
  - reflexivity.
  - reflexivity.
  - reflexivity.
  - intros r [<-|[]]; vm_compute; discriminate.
Defined.

(** A post titled [?!] is saved: the answer is the redirect to the edit
    page of the empty slug, and the row is in the table. *)
Lemma C7_punctuation_title_saved :
  ~ empty_slug_rejected 9 form_punctuation empty_db.
Proof.
  intro H; destruct (H eq_refl) as (msg & E).
  vm_compute in E; discriminate E.
Qed.

Example punctuation_title_row :
  create 9 form_punctuation empty_db
  = (Redirect_edit "",
     snd (Entry_save entry_punctuation empty_db)) /\
  map row_slug (entries (snd (create 9 form_punctuation empty_db))) = [""].
Proof. split; reflexivity. Qed.

(** ** The tag listing *)

(** [blogs_by_tag] lists every entry that has an association row with
    the tag name, published or not. *)
Lemma blogs_by_tag_lists_associated t db r :
  In r (entries db) ->
  (exists x, In x (entry_tags db) /\ bet_name x = t /\
             bet_entry x = row_id r) ->
  In r (blogs_by_tag t db).
Proof.
  intros Hr (x & Hx & Hn & He); unfold blogs_by_tag.
  apply filter_In; split; [assumption|].
  apply existsb_exists; exists (bet_entry x); split.
  - apply in_map, filter_In; split; [assumption|].
    rewrite Hn; apply String.eqb_refl.
  - rewrite He; apply Z.eqb_refl.
Qed.

(** C8, on the code: the draft [Notes], saved unpublished with the tag
    [x], is listed by the tag view of [x], though it is absent from the
    public listing and present among the drafts. *)
Theorem C8_tag_listing_shows_draft :
  row_published row_notes = false /\
  In row_notes (blogs_by_tag "x" db_notes) /\
  ~ In row_notes (public db_notes) /\
  In row_notes (drafts db_notes).
Proof.
  repeat split.
  - vm_compute; left; reflexivity.
  - vm_compute; intros [H|[]]; discriminate H.
  - vm_compute; left; reflexivity.
Qed.

(** ** Tags typed in another case *)

Example scenario_hello :
  map row_slug (entries db_hello) = ["hello-world"] /\
  count_of "announce" db_hello = Some 1 /\
  result_entries (search substring_match flat_rank "first" db_hello)
  = [row_hello] /\
  blogs_by_tag "announce" db_hello = [row_hello].
Proof. repeat split. Qed.

(** C9, on the code: with a row for [announce] of count 1 in the tag
    table, saving a new entry tagged [Announce] increments nothing,
    since the UPDATE looks for the raw string; the loop then creates
    the token [announce] a second time and the save raises the
    integrity error.  Posted through the view, the save is rolled back
    and answered as a title in use; the count is still 1. *)
Theorem C9_capitalised_tag_collides :
  count_of "announce" db_announce = Some 1 /\
  fst (Entry_save entry_news db_announce) = Raise IntegrityError /\
  count_of "announce" (snd (Entry_save entry_news db_announce)) = Some 1 /\
  handle (POST_create 11 form_news) db_announce
  = (Rendered (Some "Error: this title is already in use."), db_announce).
Proof. repeat split. Qed.

(** What the property asks for is what happens when the tag is typed
    in its normalised form: the row is incremented. *)
Example normalised_tag_increments :
  let entry := {| entry_id := None; title := "News"; slug := None;
                  content := "more"; published := true; timestamp := 11;
                  tags := ["announce"] |} in
  fst (Entry_save entry db_announce)
  = Ok (set_id (derive_slug entry) 2) /\
  count_of "announce" (snd (Entry_save entry db_announce)) = Some 2.
Proof. split; reflexivity. Qed.

(** * Further properties *)

(** ** The normal form of slugs and tokens *)

Lemma lower_char_idempotent c : lower_char (lower_char c) = lower_char c.
Proof. each_char c. Qed.

Lemma token_char_lower c : slug_char c = true -> token_char (lower_char c) = true.
Proof.
  unfold token_char, slug_char; intro H.
  rewrite lower_char_idempotent, Ascii.eqb_refl, andb_true_r.
  rewrite is_word_lower_char.
  apply orb_prop in H as [W|Hy]; [now rewrite W|].
  apply hyphen_is in Hy; subst; reflexivity.
Qed.

Lemma lowers_to_ascii_letter s d k :
  lowers_to_ascii s = Some (d, k) -> d = "i"%char \/ d = "k"%char.
Proof.
  destruct s as [|a [|b [|c r]]]; simpl;
    repeat match goal with
           | |- context [if ?x then _ else _] => destruct x
           end;
    intro H; inversion H; auto.
Qed.

(** Every byte of a lower-cased text is its own lower case. *)
Lemma lower_from_settled k s :
  all_chars (fun c => Ascii.eqb (lower_char c) c) (lower_from k s) = true.
Proof.
  revert k; induction s as [|c r IH]; intro k; [reflexivity|].
  cbn [lower_from]; destruct k as [|k]; [|apply IH].
  destruct (lowers_to_ascii (String c r)) as [[d j]|] eqn:E.
  - cbn [all_chars]; rewrite IH, andb_true_r.
    destruct (lowers_to_ascii_letter _ _ _ E) as [-> | ->]; reflexivity.
  - cbn [all_chars].
    now rewrite IH, lower_char_idempotent, Ascii.eqb_refl.
Qed.

Lemma sub_runs_settled_token_chars b u :
  all_chars (fun c => Ascii.eqb (lower_char c) c) u = true ->
  all_chars token_char (sub_runs b u) = true.
Proof.
  revert b; induction u as [|c r IH]; intros b H; simpl; [reflexivity|].
  simpl in H; apply andb_prop in H as [Hc Hr].
  destruct (is_word c) eqn:W; simpl.
  - rewrite (IH false Hr), andb_true_r.
    unfold token_char; now rewrite (slug_char_word _ W), Hc.
  - destruct b; simpl; now rewrite ?IH.
Qed.

Lemma sub_runs_lower_token_chars b s :
  all_chars token_char (sub_runs b (lower s)) = true.
Proof. apply sub_runs_settled_token_chars, lower_from_settled. Qed.

Lemma sub_runs_first b s :
  b = true -> match first_char (sub_runs b s) with
              | Some d => is_hyphen d
              | None => false
              end = false.
Proof.
  intros ->; induction s as [|c r IH]; simpl; [reflexivity|].
  destruct (is_word c) eqn:W; simpl; [now apply word_not_hyphen | exact IH].
Qed.

Lemma sub_runs_single_hyphens b s : single_hyphens (sub_runs b s) = true.
Proof.
  revert b; induction s as [|c r IH]; intro b; simpl; [reflexivity|].
  destruct (is_word c) eqn:W; simpl.
  - now rewrite (word_not_hyphen _ W), IH.
  - destruct b; simpl; [apply IH|].
    now rewrite (sub_runs_first true r eq_refl), IH.
Qed.

Lemma lstrip_single_hyphens p s :
  single_hyphens s = true -> single_hyphens (lstrip p s) = true.
Proof.
  induction s as [|c r IH]; simpl; [trivial|].
  intro H; destruct (p c); [|exact H].
  apply andb_prop in H as [_ H]; auto.
Qed.

Lemma first_char_rstrip p s :
  first_char (rstrip p s) = None \/
  first_char (rstrip p s) = first_char s.
Proof.
  destruct s as [|c r]; simpl; [now left|].
  destruct (rstrip p r); [destruct (p c)|]; simpl; auto.
Qed.

Lemma rstrip_single_hyphens p s :
  single_hyphens s = true -> single_hyphens (rstrip p s) = true.
Proof.
  induction s as [|c r IH]; simpl; [trivial|].
  intro H; apply andb_prop in H as [Hc Hr]; specialize (IH Hr).
  destruct (first_char_rstrip p r) as [E|E];
    destruct (rstrip p r) as [|d r'] eqn:R.
  - destruct (p c); simpl; [reflexivity|].
    now rewrite andb_false_r.
  - discriminate E.
  - destruct (p c); simpl; [reflexivity|].
    now rewrite andb_false_r.
  - change (single_hyphens (String c (String d r')) = true).
    cbn [single_hyphens first_char] in *.
    rewrite <- E in Hc; cbn in Hc; rewrite Hc; exact IH.
Qed.

Lemma lstrip_first p s :
  match first_char (lstrip p s) with Some d => p d | None => false end = false.
Proof.
  induction s as [|c r IH]; simpl; [reflexivity|].
  destruct (p c) eqn:P; [exact IH | simpl; exact P].
Qed.

Lemma rstrip_last p s :
  match last_char (rstrip p s) with Some d => p d | None => false end = false.
Proof.
  induction s as [|c r IH]; simpl; [reflexivity|].
  destruct (rstrip p r) as [|d r'] eqn:R.
  - destruct (p c) eqn:P; simpl; [reflexivity | exact P].
  - cbn [last_char] in *.
    destruct (last_char r') eqn:L; exact IH.
Qed.

Lemma rstrip_first p s :
  match first_char s with Some d => p d | None => false end = false ->
  match first_char (rstrip p s) with Some d => p d | None => false end
  = false.
Proof.
  intro H; destruct (first_char_rstrip p s) as [E|E]; rewrite E;
    [reflexivity | exact H].
Qed.

Lemma lstrip_fixed p s :
  match first_char s with Some d => p d | None => false end = false ->
  lstrip p s = s.
Proof. destruct s as [|c r]; simpl; [trivial|]; now intros ->. Qed.

Lemma rstrip_fixed p s :
  match last_char s with Some d => p d | None => false end = false ->
  rstrip p s = s.
Proof.
  induction s as [|c r IH]; simpl; [trivial|].
  destruct (last_char r) as [d|] eqn:L; intro H.
  - rewrite (IH H). destruct r; [discriminate L | reflexivity].
  - destruct r as [|d r']; [|simpl in L; destruct (last_char r'); discriminate L].
    simpl; now rewrite H.
Qed.

Lemma lowers_to_ascii_slug_char c r :
  slug_char c = true -> lowers_to_ascii (String c r) = None.
Proof. each_char c; intro H; try discriminate H; reflexivity. Qed.

Lemma lower_fixed s : all_chars token_char s = true -> lower s = s.
Proof.
  unfold lower; induction s as [|c r IH]; [trivial|].
  cbn [all_chars lower_from].
  intro H; apply andb_prop in H as [Hc Hr].
  unfold token_char in Hc; apply andb_prop in Hc as [Hs Hc].
  apply Ascii.eqb_eq in Hc.
  now rewrite (lowers_to_ascii_slug_char c r Hs), Hc, IH.
Qed.

Lemma sub_runs_fixed b s :
  all_chars token_char s = true ->
  single_hyphens s = true ->
  (b = true ->
   match first_char s with Some d => is_hyphen d | None => false end
   = false) ->
  sub_runs b s = s.
Proof.
  revert b; induction s as [|c r IH]; intros b Hc Hs Hb; simpl;
    [reflexivity|].
  simpl in Hc, Hs.
  apply andb_prop in Hc as [Hc Hcr]; apply andb_prop in Hs as [Hh Hsr].
  unfold token_char, slug_char in Hc; apply andb_prop in Hc as [Hc _].
  destruct (is_word c) eqn:W.
  - rewrite IH; auto; discriminate.
  - simpl in Hc; pose proof (hyphen_is _ Hc) as ->.
    destruct b; [specialize (Hb eq_refl); simpl in Hb; discriminate Hb|].
    rewrite IH; auto.
    intros _; rewrite Hc in Hh; simpl in Hh.
    now apply negb_true_iff in Hh.
Qed.

(** X5: what [slugify] returns is made of lower-case letters, digits,
    underscores and hyphens, has no hyphen at either end and no two
    hyphens in a row. *)
Theorem slugify_normal_form s :
  all_chars token_char (slugify s) = true /\
  first_char (slugify s) <> Some "-"%char /\
  last_char (slugify s) <> Some "-"%char /\
  single_hyphens (slugify s) = true.
Proof.
  unfold slugify, strip, re_sub_nonword.
  set (u := sub_runs false (lower s)).
  repeat split.
  - apply rstrip_all_chars, lstrip_all_chars, sub_runs_lower_token_chars.
  - intro E.
    pose proof (rstrip_first is_hyphen _ (lstrip_first is_hyphen u)) as H.
    rewrite E in H; discriminate H.
  - intro E.
    pose proof (rstrip_last is_hyphen (lstrip is_hyphen u)) as H.
    rewrite E in H; discriminate H.
  - apply rstrip_single_hyphens, lstrip_single_hyphens,
      sub_runs_single_hyphens.
Qed.

(** X6: normalising twice is normalising once: a slug or a token is
    its own normal form. *)
Theorem slugify_idempotent s : slugify (slugify s) = slugify s.
Proof.
  destruct (slugify_normal_form s) as (Hc & Hf & Hl & Hs).
  set (v := slugify s) in *.
  assert (F : match first_char v with Some d => is_hyphen d | None => false end
              = false).
  { destruct (first_char v) as [d|]; [|reflexivity].
    destruct (is_hyphen d) eqn:E; [|reflexivity].
    apply hyphen_is in E; subst; now elim Hf. }
  assert (L : match last_char v with Some d => is_hyphen d | None => false end
              = false).
  { destruct (last_char v) as [d|]; [|reflexivity].
    destruct (is_hyphen d) eqn:E; [|reflexivity].
    apply hyphen_is in E; subst; now elim Hl. }
  unfold slugify at 1, strip, re_sub_nonword.
  rewrite (lower_fixed v Hc), (sub_runs_fixed false v Hc Hs);
    [|discriminate].
  now rewrite (lstrip_fixed _ _ F), (rstrip_fixed _ _ L).
Qed.

(** ** Keys of the entry table *)

Lemma Model_save_update_others self db k db1 s :
  Model_save self db = (Ok k, db1) ->
  entry_id self = Some k ->
  slug self = Some s ->
  In k (map row_id (entries db)) ->
  forall r, In r (entries db) -> row_id r <> k -> row_slug r <> s.
Proof.
  unfold Model_save; intros H Hid Hs Hk r Hr Hne Es.
  rewrite Hs, Hid in H.
  assert (E1 : existsb (fun x => row_id x =? k) (entries db) = true).
  { apply in_map_iff in Hk as (x & Ex & Hx).
    apply existsb_exists; exists x; split; [assumption|].
    now apply Z.eqb_eq. }
  assert (E2 : existsb (fun x => negb (row_id x =? k) &&
                                 String.eqb (row_slug x) s) (entries db)
               = true).
  { apply existsb_exists; exists r; split; [assumption|].
    rewrite Es, String.eqb_refl, andb_true_r.
    now apply negb_true_iff, Z.eqb_neq. }
  rewrite E1, E2 in H; discriminate H.
Qed.

Lemma map_row_id_update k (new : EntryRow) l :
  row_id new = k ->
  map row_id (map (fun r => if row_id r =? k then new else r) l)
  = map row_id l.
Proof.
  intro E; rewrite map_map; apply map_ext; intro r.
  destruct (Z.eqb_spec (row_id r) k); congruence.
Qed.

Lemma update_absent k (new : EntryRow) l :
  ~ In k (map row_id l) ->
  map (fun r => if row_id r =? k then new else r) l = l.
Proof.
  intro H; rewrite <- (map_id l) at 2; apply map_ext_in; intros r Hr.
  destruct (Z.eqb_spec (row_id r) k) as [E|E]; [|reflexivity].
  exfalso; apply H; rewrite <- E; now apply in_map.
Qed.

Lemma NoDup_slugs_update k (new : EntryRow) l :
  NoDup (map row_id l) ->
  NoDup (map row_slug l) ->
  (forall r, In r l -> row_id r <> k -> row_slug r <> row_slug new) ->
  NoDup (map row_slug (map (fun r => if row_id r =? k then new else r) l)).
Proof.
  induction l as [|a l IH]; simpl; intros Ni Ns Ho; [constructor|].
  inversion Ni as [|? ? Hai Hli]; inversion Ns as [|? ? Has Hls]; subst.
  destruct (Z.eqb_spec (row_id a) k) as [E|E].
  - subst k; rewrite (update_absent _ _ _ Hai).
    constructor; [|assumption].
    intro H; apply in_map_iff in H as (r & Er & Hr).
    apply (Ho r); auto.
    intro X; apply Hai; rewrite <- X; now apply in_map.
  - constructor; [|apply IH; auto].
    intro H; apply in_map_iff in H as (r' & Er & Hr).
    apply in_map_iff in Hr as (r & <- & Hr).
    destruct (Z.eqb_spec (row_id r) k) as [E'|E'].
    + apply (Ho a); auto.
    + apply Has; rewrite <- Er; now apply in_map.
Qed.

Lemma NoDup_map_snoc {A B} (f : A -> B) l a :
  NoDup (map f l) -> ~ In (f a) (map f l) -> NoDup (map f (l ++ [a])).
Proof.
  intros ND Ha; rewrite map_app; simpl.
  apply NoDup_app; repeat split; auto.
  - constructor; [intros [] | constructor].
  - intros k Hk [<-|[]]; auto.
Qed.

(** A row write that succeeds keeps ids and slugs distinct, keeps the
    ids there were, and leaves a row with the id it returns. *)
Lemma Model_save_keys self db k db1 :
  NoDup (map row_id (entries db)) ->
  NoDup (map row_slug (entries db)) ->
  new_or_stored self db ->
  Model_save self db = (Ok k, db1) ->
  NoDup (map row_id (entries db1)) /\
  NoDup (map row_slug (entries db1)) /\
  In k (map row_id (entries db1)) /\
  (forall i, In i (map row_id (entries db)) ->
             In i (map row_id (entries db1))).
Proof.
  intros Ni Ns Hst H.
  destruct (Model_save_rows _ _ _ _ H) as (s & Hs & Hrows).
  destruct Hrows as [(Hid & Hk & Hnew & E) | (Hid & E)]; rewrite E.
  - repeat split.
    + apply (NoDup_snoc row_id); [assumption|].
      simpl; rewrite Hk; apply next_id_fresh.
    + apply NoDup_map_snoc; assumption.
    + rewrite map_app; apply in_or_app; right; now left.
    + intros i Hi; rewrite map_app; apply in_or_app; now left.
  - assert (Hin : In k (map row_id (entries db))).
    { destruct Hst as [N | (r & Hr & Er)]; [congruence|].
      rewrite Hid in Er; injection Er as ->; now apply in_map. }
    rewrite (map_row_id_update k (row_of k s self)); [|reflexivity].
    repeat split; auto.
    apply NoDup_slugs_update; auto.
    intros r Hr Hne; simpl.
    exact (Model_save_update_others _ _ _ _ _ H Hid Hs Hin r Hr Hne).
Qed.

(** ** Documents beside their entries *)

Lemma mirrors_keys rows docs :
  Forall2 mirrors rows docs -> map fts_entry_id docs = map row_id rows.
Proof.
  induction 1 as [|r d rows docs [E _] _ IH]; simpl; [reflexivity|].
  now rewrite E, IH.
Qed.

Lemma Forall2_map_both {A B} (R : A -> B -> Prop) g h l1 l2 :
  Forall2 R l1 l2 ->
  (forall a b, In a l1 -> In b l2 -> R a b -> R (g a) (h b)) ->
  Forall2 R (map g l1) (map h l2).
Proof.
  induction 1 as [|a b l1 l2 Hab _ IH]; intro H; simpl; constructor.
  - apply H; simpl; auto.
  - apply IH; intros; apply H; simpl; auto.
Qed.

Lemma mirrors_written k s e i t :
  mirrors (row_of k s e)
    {| docid := i; fts_entry_id := k; fts_content := search_text e;
       fts_tags := t |}.
Proof. split; [reflexivity | exists (tags e); reflexivity]. Qed.

(** Writing the document of entry [k] keeps the documents beside the
    rows, whether the row of [k] was appended or rewritten. *)
Lemma update_search_index_mirrors k s e db2 db3 rows :
  Forall2 mirrors rows (fts db2) ->
  NoDup (map docid (fts db2)) ->
  NoDup (map row_id rows) ->
  update_search_index k e db2 = (Ok tt, db3) ->
  (~ In k (map row_id rows) ->
   Forall2 mirrors (rows ++ [row_of k s e]) (fts db3)) /\
  (In k (map row_id rows) ->
   Forall2 mirrors
     (map (fun r => if row_id r =? k then row_of k s e else r) rows)
     (fts db3)).
Proof.
  intros M Nd Ni; pose proof (mirrors_keys _ _ M) as K.
  unfold update_search_index.
  destruct (find _ _) as [d0|] eqn:F; intro H; inversion H; subst; clear H;
    simpl; split; intro Hk.
  - exfalso; apply Hk; rewrite <- K.
    apply find_some in F as [Hin E]; apply Z.eqb_eq in E.
    rewrite <- E; now apply in_map.
  - apply find_some in F as [Hin E]; apply Z.eqb_eq in E.
    assert (Ne : NoDup (map fts_entry_id (fts db2))) by now rewrite K.
    apply Forall2_map_both; [assumption|].
    intros r d Hr Hd [Ed Tx].
    destruct (Z.eqb_spec (row_id r) k) as [Er|Er].
    + assert (d = d0).
      { apply (key_injective fts_entry_id (fts db2)); auto; congruence. }
      subst d; rewrite Z.eqb_refl, E.
      apply mirrors_written.
    + destruct (Z.eqb_spec (docid d) (docid d0)) as [X|X].
      * exfalso; apply Er.
        rewrite (key_injective docid _ _ _ Nd Hd Hin X) in Ed; congruence.
      * split; assumption.
  - apply Forall2_app; [assumption|].
    constructor; [apply mirrors_written | constructor].
  - exfalso; rewrite <- K in Hk.
    apply in_map_iff in Hk as (d & Ed & Hd).
    pose proof (find_none _ _ F d Hd) as N; simpl in N.
    apply Z.eqb_neq in N; auto.
Qed.

(** ** Association rows *)

Lemma appends_associations_run k ts db db' :
  for_each (fun t => BlogEntryTag_create k (slugify t)) ts db = (Ok tt, db')
  -> appends_associations k ts db db'.
Proof.
  revert db; induction ts as [|t r IH]; intros db H; simpl in H.
  - inversion H; subst; exists []; rewrite app_nil_r; auto.
  - unfold bind at 1 in H; simpl in H.
    destruct (IH _ H) as (new & E & Ek & En); simpl in E.
    eexists (_ :: new); rewrite E, <- app_assoc; simpl.
    repeat split; f_equal; assumption.
Qed.

(** ** Tokens of the tag table *)

Lemma appends_tokens_refl ts db : appends_tokens ts db db.
Proof. exists []; rewrite app_nil_r; repeat split; auto. Qed.

Lemma appends_tokens_trans ts a b c :
  appends_tokens ts a b -> appends_tokens ts b c -> appends_tokens ts a c.
Proof.
  intros (n1 & E1 & F1 & N1) (n2 & E2 & F2 & N2).
  exists (n1 ++ n2)%list; repeat split; auto.
  - now rewrite E2, E1, app_assoc.
  - apply Forall_app; auto.
Qed.

Lemma appends_tokens_weaken ts ts' a b :
  incl ts ts' -> appends_tokens ts a b -> appends_tokens ts' a b.
Proof.
  intros I (n & E & F & N); exists n; repeat split; auto.
  eapply Forall_impl; [|exact F].
  intros r (C & t & Ht & Et); split; [assumption|].
  exists t; split; auto.
Qed.

Lemma Tag_create_appends_tokens t db :
  appends_tokens [t] db (snd (Tag_create (slugify t) 1 db)).
Proof.
  unfold Tag_create; destruct (existsb _ _) eqn:X; simpl.
  - apply appends_tokens_refl.
  - eexists; repeat split.
    + repeat constructor; exists t; split; [now left | reflexivity].
    + intro N; apply NoDup_map_snoc; [assumption|]; simpl.
      intro Hin; apply in_map_iff in Hin as (r & Er & Hr).
      apply Bool.not_true_iff_false in X; apply X.
      apply existsb_exists; exists r; split; [assumption|].
      rewrite Er; apply String.eqb_refl.
Qed.

(** The loop of [update_tags], to its end or to the statement that
    raised, only appends rows for tokens of the list that had none. *)
Lemma update_tags_loop_tokens existing ts db :
  appends_tokens ts db
    (snd (for_each (fun t => if mem (slugify t) existing then ret tt
                             else Tag_create (slugify t) 1) ts db)).
Proof.
  revert db; induction ts as [|t r IH]; intro db; simpl.
  - apply appends_tokens_refl.
  - unfold bind.
    destruct (mem (slugify t) existing); simpl.
    + apply (appends_tokens_weaken r); [apply incl_tl, incl_refl | apply IH].
    + pose proof (Tag_create_appends_tokens t db) as H1.
      destruct (Tag_create (slugify t) 1 db) as [[[]|e] dbY]; simpl in *.
      * apply (appends_tokens_trans _ _ dbY).
        -- apply (appends_tokens_weaken [t]); [|assumption].
           intros x [<-|[]]; now left.
        -- apply (appends_tokens_weaken r); [apply incl_tl, incl_refl|].
           apply IH.
      * apply (appends_tokens_weaken [t]); [|assumption].
        intros x [<-|[]]; now left.
Qed.

(** The tag table a successful [update_tags] leaves. *)
Lemma update_tags_tokens self db db' :
  update_tags self db = (Ok tt, db') ->
  exists new,
    tag_rows db' =
      (map (fun r => if mem (tag r) (tags self) then bump r else r)
         (tag_rows db) ++ new)%list /\
    Forall (fun r => count r = 1 /\
                     exists t, In t (tags self) /\ tag r = slugify t) new /\
    (NoDup (map tag (tag_rows db)) -> NoDup (map tag (tag_rows db'))).
Proof.
  unfold update_tags, bind, Tag_increment; simpl; intro H.
  match type of H with
  | for_each ?b ?ts ?d = _ =>
      pose proof (update_tags_loop_tokens
                    (Tag_select_in (tags self) d) ts d) as (new & E & F & N)
  end.
  rewrite H in E, N; simpl in E, N.
  exists new; repeat split; auto.
  intro Nd; apply N.
  rewrite map_map; erewrite map_ext; [exact Nd|].
  intro r; now destruct (mem (tag r) (tags self)).
Qed.

(** ** The tables after a successful save *)

Lemma Entry_save_anatomy self db e db' :
  Entry_save self db = (Ok e, db') ->
  exists k db1 db2 db3,
    Model_save (derive_slug self) db = (Ok k, db1) /\
    e = set_id (derive_slug self) k /\
    entries db' = entries db1 /\
    fts db2 = fts db /\
    update_search_index k e db2 = (Ok tt, db3) /\
    fts db' = fts db3 /\
    appends_associations k (tags self) db db' /\
    tag_rows db3 = tag_rows db /\
    update_tags e db3 = (Ok tt, db').
Proof.
  intro H; pose proof (Entry_save_entries _ _ _ _ H) as (k0 & d0 & M0 & _ & Ee).
  apply Entry_save_Ok in H
    as (k & db1 & db2 & db3 & H1 & H2 & H3 & H4 & ->).
  rewrite H1 in M0; inversion M0; subst k0 d0; clear M0.
  exists k, db1, db2, db3.
  pose proof (respects_run _ _ _ _ _ (Model_save_fts _) H1) as F1.
  pose proof (respects_run _ _ _ _ _ (Model_save_entry_tags _) H1) as A1.
  pose proof (respects_run _ _ _ _ _ (Model_save_tag_rows _) H1) as T1.
  assert (F2 : keeps fts db1 db2).
  { eapply respects_run; [|exact H2].
    apply respects_for_each; eauto with frame.
    intro; apply BlogEntryTag_create_fts. }
  assert (T2 : keeps tag_rows db1 db2).
  { eapply respects_run; [|exact H2].
    apply respects_for_each; eauto with frame.
    intro; apply BlogEntryTag_create_tag_rows. }
  pose proof (respects_run _ _ _ _ _
                (update_search_index_entry_tags _ _) H3) as A3.
  pose proof (respects_run _ _ _ _ _
                (update_search_index_tag_rows _ _) H3) as T3.
  assert (F4 : keeps fts db3 db').
  { eapply respects_run; [|exact H4].
    apply update_tags_others; reflexivity. }
  assert (A4 : keeps entry_tags db3 db').
  { eapply respects_run; [|exact H4].
    apply update_tags_others; reflexivity. }
  unfold keeps in *.
  repeat split; auto; try congruence.
  rewrite tags_derive_slug in H2.
  destruct (appends_associations_run _ _ _ _ H2) as (new & E & Ek & En).
  exists new; repeat split; auto; congruence.
Qed.

Lemma Entry_save_consistent self db e db' :
  consistent db -> new_or_stored self db ->
  Entry_save self db = (Ok e, db') ->
  consistent db'.
Proof.
  intros [Ci Cs Cd Cm Ca Ct Cg] Hst H.
  apply Entry_save_anatomy in H
    as (k & db1 & db2 & db3 & H1 & He & Ee & F2 & H3 & F4 & HA & T3 & H4).
  assert (Hst' : new_or_stored (derive_slug self) db).
  { unfold derive_slug; now destruct (slug_unset self). }
  destruct (Model_save_keys _ _ _ _ Ci Cs Hst' H1) as (Ni & Ns & Hk & Hold).
  assert (Etags : tags e = tags self)
    by (subst e; apply tags_derive_slug).
  destruct (update_tags_tokens _ _ _ H4) as (new & ET & Fnew & Nt).
  rewrite Etags, T3 in ET.
  destruct HA as (newa & EA & Ek & En).
  assert (Hassoc_new : forall t, In t (tags self) ->
            exists x, In x (entry_tags db') /\ bet_name x = slugify t).
  { intros t Ht.
    assert (Hn : In (slugify t) (map bet_name newa))
      by (rewrite En; now apply in_map).
    apply in_map_iff in Hn as (x & Ex & Hx).
    exists x; split; [|assumption].
    rewrite EA; apply in_or_app; now right. }
  constructor.
  - now rewrite Ee.
  - now rewrite Ee.
  - rewrite F4.
    rewrite <- F2 in Cd.
    assert (Ne : NoDup (map fts_entry_id (fts db2))).
    { rewrite F2, (mirrors_keys _ _ Cm); assumption. }
    exact (proj1 (update_search_index_document _ _ _ _ Cd Ne H3)).
  - rewrite Ee, F4.
    rewrite <- F2 in Cm, Cd.
    destruct (Model_save_rows _ _ _ _ H1) as (s & Hs & Hrows).
    destruct (update_search_index_mirrors k s e db2 db3 _ Cm Cd Ci H3)
      as [Mnew Mupd].
    assert (Er : row_of k s e = row_of k s (derive_slug self))
      by (subst e; reflexivity).
    destruct Hrows as [(Hid & Hkn & _ & E) | (Hid & E)]; rewrite E, <- Er.
    + apply Mnew; rewrite Hkn; apply next_id_fresh.
    + apply Mupd.
      destruct Hst' as [N | (r & Hr & Eid)]; [congruence|].
      rewrite Hid in Eid; injection Eid as ->; now apply in_map.
  - intros x Hx; rewrite EA in Hx; rewrite Ee.
    apply in_app_or in Hx as [Hx|Hx].
    + destruct (Ca x Hx) as [X1 X2]; split; [now apply Hold|].
      rewrite ET, map_app; apply in_or_app; left.
      rewrite map_map.
      apply in_map_iff in X2 as (r & Er & Hr).
      apply in_map_iff; exists r; split; [|assumption].
      now destruct (mem (tag r) (tags self)).
    + split.
      * assert (Hb : In (bet_entry x) (map bet_entry newa))
          by now apply in_map.
        rewrite Ek in Hb; apply in_map_iff in Hb as (? & <- & _).
        exact Hk.
      * assert (Hn : In (bet_name x) (map bet_name newa))
          by now apply in_map.
        rewrite En in Hn; apply in_map_iff in Hn as (t & <- & Ht).
        destruct (update_tags_Ok_present _ _ _ H4 t) as (r & Hr & Er);
          [now rewrite Etags|].
        rewrite <- Er; now apply in_map.
  - apply Nt; now rewrite T3.
  - intros t Ht; rewrite ET in Ht.
    apply in_app_or in Ht as [Ht|Ht].
    + apply in_map_iff in Ht as (r & <- & Hr).
      destruct (Cg r Hr) as (C1 & C2 & x & Hx & Ex).
      assert (Hx' : In x (entry_tags db'))
        by (rewrite EA; apply in_or_app; now left).
      destruct (mem (tag r) (tags self)); simpl;
        repeat split; try lia; try assumption; exists x; auto.
    + rewrite Forall_forall in Fnew.
      destruct (Fnew t Ht) as (C1 & t0 & Ht0 & Et0).
      rewrite Etags in Ht0.
      repeat split; [lia | rewrite Et0; apply slugify_idempotent |].
      rewrite Et0; now apply Hassoc_new.
Qed.

(** ** Consistency of every reachable database *)

Lemma consistent_empty : consistent empty_db.
Proof.
  constructor; simpl.
  - constructor.
  - constructor.
  - constructor.
  - constructor.
  - intros x [].
  - constructor.
  - intros t [].
Qed.

Lemma create_or_edit_answer entry f db :
  new_or_stored entry db ->
  answer_matches (fst (create_or_edit entry f db)) db
    (snd (create_or_edit entry f db)).
Proof.
  intro Hst; unfold create_or_edit.
  destruct (negb _); [reflexivity|].
  destruct (atomic _ db) as [[e|[]] db'] eqn:E; simpl.
  - apply (proj1 (atomic_Ok _ _ _ _)) in E.
    assert (Es : exists s, slug e = Some s).
    { apply Entry_save_Ok in E as (k & _ & _ & _ & _ & _ & _ & _ & ->).
      simpl; rewrite slug_derive_slug; eauto. }
    destruct Es as (s & Es); rewrite Es.
    destruct (published e); simpl; exists (fill entry f), e; auto.
  - now apply atomic_Raise in E.
Qed.

Lemma handle_answer rq db :
  answer_matches (fst (handle rq db)) db (snd (handle rq db)).
Proof.
  destruct rq as [now f | s f]; simpl.
  - apply create_or_edit_answer; now left.
  - unfold edit; destruct (find _ _) as [r|] eqn:F; [|reflexivity].
    apply create_or_edit_answer; right; exists r; split; [|reflexivity].
    now apply find_some in F.
Qed.

Lemma handle_consistent rq db : consistent db -> consistent (snd (handle rq db)).
Proof.
  intro C; pose proof (handle_answer rq db) as H.
  destruct (fst (handle rq db)); simpl in H;
    try (rewrite H; exact C);
    destruct H as (self & e & H & _ & Hst);
    exact (Entry_save_consistent _ _ _ _ C Hst H).
Qed.

Lemma reachable_consistent db : reachable db -> consistent db.
Proof.
  induction 1 as [|rq db _ IH];
    [apply consistent_empty | now apply handle_consistent].
Qed.

(** ** Ordered listings *)

Section Ordering.

Context {A : Type} (lt : A -> A -> bool).
Hypothesis lt_asym : forall a b, lt a b = true -> lt b a = false.

Lemma insert_by_permutation x l : Permutation (insert_by lt x l) (x :: l).
Proof.
  induction l as [|y r IH]; simpl; [reflexivity|].
  destruct (lt y x); [reflexivity|].
  rewrite IH; apply perm_swap.
Qed.

Lemma order_by_desc_permutation l : Permutation (order_by_desc lt l) l.
Proof.
  induction l as [|x r IH]; simpl; [reflexivity|].
  rewrite insert_by_permutation; now constructor.
Qed.

Lemma insert_by_sorted x l :
  Sorted (not_below lt) l -> Sorted (not_below lt) (insert_by lt x l).
Proof.
  induction l as [|y r IH]; simpl; intro S.
  - repeat constructor.
  - destruct (lt y x) eqn:E.
    + constructor; [assumption|].
      constructor; now apply lt_asym.
    + inversion S as [|? ? Sr Hd]; subst.
      constructor; [now apply IH|].
      destruct r as [|z r']; simpl.
      * constructor; exact E.
      * destruct (lt z x); constructor; [exact E|].
        now inversion Hd.
Qed.

Lemma order_by_desc_sorted l : Sorted (not_below lt) (order_by_desc lt l).
Proof.
  induction l as [|x r IH]; simpl; [constructor|].
  now apply insert_by_sorted.
Qed.

End Ordering.

Lemma by_timestamp_asym a b : by_timestamp a b = true -> by_timestamp b a = false.
Proof. unfold by_timestamp; intro H; apply Z.ltb_lt in H; apply Z.ltb_ge; lia. Qed.

Lemma by_count_asym a b : by_count a b = true -> by_count b a = false.
Proof. unfold by_count; intro H; apply Z.ltb_lt in H; apply Z.ltb_ge; lia. Qed.

Lemma by_token_asym a b : by_token a b = true -> by_token b a = false.
Proof.
  unfold by_token, String.ltb; intro H.
  rewrite String.compare_antisym.
  destruct (String.compare (tag a) (tag b)); try discriminate H; reflexivity.
Qed.

(** ** What holds of every database the views build *)

Lemma map_injective_on {A B} (f : A -> B) l a b :
  NoDup (map f l) -> In a l -> In b l -> f a = f b -> a = b.
Proof.
  induction l as [|x r IH]; simpl; [contradiction|].
  intros ND Ha Hb E; inversion ND as [|? ? Hx Hr]; subst.
  destruct Ha as [->|Ha], Hb as [->|Hb]; auto.
  - exfalso; apply Hx; rewrite E; now apply in_map.
  - exfalso; apply Hx; rewrite <- E; now apply in_map.
Qed.

Lemma Forall2_In_l {A B} (R : A -> B -> Prop) l1 l2 a :
  Forall2 R l1 l2 -> In a l1 -> exists b, In b l2 /\ R a b.
Proof.
  induction 1 as [|x y l1 l2 Hxy _ IH]; simpl; [contradiction|].
  intros [->|H]; [exists y; auto|].
  destruct (IH H) as (b & Hb & Rb); exists b; auto.
Qed.

Lemma Forall2_In_r {A B} (R : A -> B -> Prop) l1 l2 b :
  Forall2 R l1 l2 -> In b l2 -> exists a, In a l1 /\ R a b.
Proof.
  induction 1 as [|x y l1 l2 Hxy _ IH]; simpl; [contradiction|].
  intros [->|H]; [exists x; auto|].
  destruct (IH H) as (a & Ha & Ra); exists a; auto.
Qed.

Lemma reachable_db_notes : reachable db_notes.
Proof. apply (reach_step (POST_create 7 form_notes)), reachable_db_hello. Qed.

(** X1: in every database the create and edit views can build, no two
    entries share an id, no two entries share a slug, and no two tag
    rows share a token. *)
Theorem reachable_keys_distinct db :
  reachable db ->
  NoDup (map row_id (entries db)) /\
  NoDup (map row_slug (entries db)) /\
  NoDup (map tag (tag_rows db)).
Proof.
  intro R; destruct (reachable_consistent _ R); auto.
Qed.

Lemma reachable_keys_distinct_witness :
  NoDup (map row_id (entries db_notes)) /\
  NoDup (map row_slug (entries db_notes)) /\
  NoDup (map tag (tag_rows db_notes)).
Proof.
  apply (reachable_keys_distinct db_notes).
  apply (reach_step (POST_create 7 form_notes)),
    (reach_step (POST_create 0 form_hello)), reach_empty.
Defined.

(** X2: in every such database each entry has exactly one search
    document, whose text is the entry's current title, a newline, its
    current content, a newline and a comma-joined tag list; and every
    search document belongs to an entry of the table. *)
Theorem reachable_documents_mirror db :
  reachable db ->
  (forall r, In r (entries db) ->
     exists d ts,
       documents_for (row_id r) db = [d] /\
       fts_content d =
         row_title r ++ newline ++ row_content r ++ newline ++
         String.concat "," ts) /\
  (forall d, In d (fts db) ->
     exists r, In r (entries db) /\ row_id r = fts_entry_id d).
Proof.
  intro R; destruct (reachable_consistent _ R) as [Ci _ _ Cm _ _ _].
  pose proof (mirrors_keys _ _ Cm) as K.
  split.
  - intros r Hr.
    destruct (Forall2_In_l _ _ _ _ Cm Hr) as (d & Hd & Ed & ts & Et).
    exists d, ts; split; [|assumption].
    unfold documents_for; rewrite <- Ed.
    apply (filter_key_unique fts_entry_id); [now rewrite K | assumption].
  - intros d Hd.
    destruct (Forall2_In_r _ _ _ _ Cm Hd) as (r & Hr & Ed & _).
    exists r; auto.
Qed.

Lemma reachable_documents_mirror_witness :
  (forall r, In r (entries db_notes) ->
     exists d ts,
       documents_for (row_id r) db_notes = [d] /\
       fts_content d =
         row_title r ++ newline ++ row_content r ++ newline ++
         String.concat "," ts) /\
  (forall d, In d (fts db_notes) ->
     exists r, In r (entries db_notes) /\ row_id r = fts_entry_id d).
Proof.
  apply (reachable_documents_mirror db_notes).
  apply (reach_step (POST_create 7 form_notes)),
    (reach_step (POST_create 0 form_hello)), reach_empty.
Defined.

Lemma count_of_present n db :
  In n (map tag (tag_rows db)) ->
  exists r, In r (tag_rows db) /\ tag r = n /\ count_of n db = Some (count r).
Proof.
  intro H; unfold count_of.
  destruct (find _ _) as [r|] eqn:F.
  - apply find_some in F as [Hr E]; apply String.eqb_eq in E.
    exists r; auto.
  - apply in_map_iff in H as (r & E & Hr).
    pose proof (find_none _ _ F r Hr) as N; simpl in N.
    rewrite E, String.eqb_refl in N; discriminate N.
Qed.

(** X3: in every such database each association row points to an
    entry of the table and is named by a token that has a tag row with
    a count of at least 1; and each tag row has a count of at least 1,
    a token in normal form, and an association row named by it. *)
Theorem reachable_tag_index db :
  reachable db ->
  (forall x, In x (entry_tags db) ->
     (exists r, In r (entries db) /\ row_id r = bet_entry x) /\
     exists c, count_of (bet_name x) db = Some c /\ 1 <= c) /\
  (forall t, In t (tag_rows db) ->
     1 <= count t /\ slugify (tag t) = tag t /\
     exists x, In x (entry_tags db) /\ bet_name x = tag t).
Proof.
  intro R; destruct (reachable_consistent _ R) as [_ _ _ _ Ca _ Cg].
  split; [|exact Cg].
  intros x Hx; destruct (Ca x Hx) as [H1 H2]; split.
  - apply in_map_iff in H1 as (r & E & Hr); exists r; auto.
  - destruct (count_of_present _ _ H2) as (r & Hr & _ & Ec).
    exists (count r); split; [assumption|].
    now destruct (Cg r Hr).
Qed.

Lemma reachable_tag_index_witness :
  (forall x, In x (entry_tags db_notes) ->
     (exists r, In r (entries db_notes) /\ row_id r = bet_entry x) /\
     exists c, count_of (bet_name x) db_notes = Some c /\ 1 <= c) /\
  (forall t, In t (tag_rows db_notes) ->
     1 <= count t /\ slugify (tag t) = tag t /\
     exists x, In x (entry_tags db_notes) /\ bet_name x = tag t).
Proof.
  apply (reachable_tag_index db_notes).
  apply (reach_step (POST_create 7 form_notes)),
    (reach_step (POST_create 0 form_hello)), reach_empty.
Defined.

(** X4: a posted create or edit is all or nothing.  When the answer is
    a page (the validation message, the message of a slug in use) or
    the 404, the database is the one before; when it is a redirect, the
    database is the one a complete [Entry.save] left and the redirect
    names the slug of the saved object. *)
Theorem handle_all_or_nothing rq db :
  answer_matches (fst (handle rq db)) db (snd (handle rq db)).
Proof. exact (handle_answer rq db). Qed.

(** ** Editing and looking up *)

Lemma Entry_save_entries_any self db :
  entries (snd (Entry_save self db))
  = entries (snd (Model_save (derive_slug self) db)).
Proof.
  destruct (Model_save (derive_slug self) db) as [[k|e] db1] eqn:M; simpl.
  - exact (Entry_save_entries_after_row _ _ _ _ M).
  - unfold Entry_save, bind; now rewrite M.
Qed.

Lemma Model_save_stored_entries self db k s :
  entry_id self = Some k -> slug self = Some s ->
  entries (snd (Model_save self db)) = entries db \/
  entries (snd (Model_save self db))
  = map (fun r => if row_id r =? k then row_of k s self else r) (entries db).
Proof.
  intros Hid Hs; unfold Model_save; rewrite Hs, Hid.
  destruct (_ && _); simpl; auto.
Qed.

Lemma find_slug_unique l x :
  NoDup (map row_slug l) -> In x l ->
  find (fun r => String.eqb (row_slug r) (row_slug x)) l = Some x.
Proof.
  intros ND Hx.
  destruct (find _ l) as [y|] eqn:F.
  - apply find_some in F as [Hy E]; apply String.eqb_eq in E.
    f_equal; exact (map_injective_on row_slug l y x ND Hy Hx E).
  - pose proof (find_none _ _ F x Hx) as N; simpl in N.
    rewrite String.eqb_refl in N; discriminate N.
Qed.

(** X7: a posted edit, whatever its outcome, leaves the id and the
    timestamp of every entry as they were, and, when the slug in the
    URL is not the empty one, the slug of every entry too. *)
Theorem edit_keeps_keys s f db :
  reachable db ->
  map row_id (entries (snd (handle (POST_edit s f) db)))
  = map row_id (entries db) /\
  map row_timestamp (entries (snd (handle (POST_edit s f) db)))
  = map row_timestamp (entries db) /\
  (truthy s = true ->
   map row_slug (entries (snd (handle (POST_edit s f) db)))
   = map row_slug (entries db)).
Proof.
  intro R; destruct (reachable_consistent _ R) as [Ci _ _ _ _ _ _].
  simpl; unfold edit.
  destruct (find _ _) as [r0|] eqn:F; [|auto].
  apply find_some in F as [H0 E0]; apply String.eqb_eq in E0.
  destruct (create_or_edit_cases (entry_of_row r0) f db) as [-> | ->];
    [auto|].
  rewrite Entry_save_entries_any.
  set (self := fill (entry_of_row r0) f).
  assert (Hid : entry_id (derive_slug self) = Some (row_id r0)).
  { unfold derive_slug; now destruct (slug_unset self). }
  destruct (Model_save_stored_entries _ db _ _ Hid (slug_derive_slug self))
    as [-> | ->]; [auto|].
  assert (Hsame : forall r, In r (entries db) -> row_id r = row_id r0 ->
                            r = r0).
  { intros r Hr E; exact (key_injective row_id _ _ _ Ci Hr H0 E). }
  repeat split.
  - apply map_row_id_update; reflexivity.
  - rewrite map_map; apply map_ext_in; intros r Hr.
    destruct (Z.eqb_spec (row_id r) (row_id r0)) as [E|E]; [|reflexivity].
    rewrite (Hsame r Hr E); simpl.
    unfold derive_slug; now destruct (slug_unset self).
  - intro Ts; rewrite map_map; apply map_ext_in; intros r Hr.
    destruct (Z.eqb_spec (row_id r) (row_id r0)) as [E|E]; [|reflexivity].
    rewrite (Hsame r Hr E); simpl.
    unfold effective_slug; simpl; rewrite E0, Ts; reflexivity.
Qed.

Lemma edit_keeps_keys_witness :
  map row_id (entries (snd (handle (POST_edit "hello-world" form_edit_hello)
                              db_notes)))
  = map row_id (entries db_notes) /\
  map row_timestamp
    (entries (snd (handle (POST_edit "hello-world" form_edit_hello)
                     db_notes)))
  = map row_timestamp (entries db_notes) /\
  (truthy "hello-world" = true ->
   map row_slug
     (entries (snd (handle (POST_edit "hello-world" form_edit_hello)
                      db_notes)))
   = map row_slug (entries db_notes)).
Proof.
  apply (edit_keeps_keys "hello-world" form_edit_hello db_notes).
  apply (reach_step (POST_create 7 form_notes)),
    (reach_step (POST_create 0 form_hello)), reach_empty.
Defined.

Example edit_hello_saved :
  fst (handle (POST_edit "hello-world" form_edit_hello) db_notes)
  = Redirect_edit "hello-world".
Proof. reflexivity. Qed.

Lemma find_slug_filter (q : EntryRow -> bool) l x :
  NoDup (map row_slug l) -> In x l ->
  find (fun r => String.eqb (row_slug r) (row_slug x)) (filter q l)
  = if q x then Some x else None.
Proof.
  intros ND Hx.
  destruct (find _ (filter q l)) as [y|] eqn:F.
  - apply find_some in F as [Hy E]; apply String.eqb_eq in E.
    apply filter_In in Hy as [Hy Q].
    rewrite <- (map_injective_on row_slug l y x ND Hy Hx E), Q; reflexivity.
  - destruct (q x) eqn:Q; [|reflexivity].
    assert (Hf : In x (filter q l)) by (apply filter_In; auto).
    pose proof (find_none _ _ F x Hf) as N; simpl in N.
    rewrite String.eqb_refl in N; discriminate N.
Qed.

(** X10: the page of an entry is found by its slug.  A logged-in
    session gets the entry, published or not; any other session gets a
    published entry and the 404 for a draft. *)
Theorem detail_hides_drafts db r :
  reachable db ->
  In r (entries db) ->
  detail true (row_slug r) db = Some r /\
  detail false (row_slug r) db = (if row_published r then Some r else None).
Proof.
  intros R Hr; destruct (reachable_consistent _ R) as [_ Cs _ _ _ _ _].
  unfold detail, public; split.
  - now apply find_slug_unique.
  - now apply find_slug_filter.
Qed.

Lemma detail_hides_drafts_witness :
  detail true (row_slug row_notes) db_notes = Some row_notes /\
  detail false (row_slug row_notes) db_notes
  = (if row_published row_notes then Some row_notes else None).
Proof.
  apply (detail_hides_drafts db_notes row_notes).
  - apply (reach_step (POST_create 7 form_notes)),
      (reach_step (POST_create 0 form_hello)), reach_empty.
  - vm_compute; right; left; reflexivity.
Defined.

Lemma redirect_saved entry f db resp db' s :
  create_or_edit entry f db = (resp, db') ->
  resp = Redirect_detail s \/ resp = Redirect_edit s ->
  exists e, Entry_save (fill entry f) db = (Ok e, db') /\
            slug e = Some s /\
            (resp = Redirect_detail s <-> published e = true).
Proof.
  unfold create_or_edit.
  destruct (negb _); [intros H [->| ->]; discriminate H|].
  destruct (atomic _ db) as [[e|[]] d] eqn:E;
    [|intros H [->| ->]; discriminate H].
  apply (proj1 (atomic_Ok _ _ _ _)) in E.
  assert (Es : exists s0, slug e = Some s0).
  { pose proof E as E'.
    apply Entry_save_Ok in E' as (k & _ & _ & _ & _ & _ & _ & _ & ->).
    simpl; rewrite slug_derive_slug; eauto. }
  destruct Es as (s0 & Es); rewrite Es.
  intros H Hr; inversion H; subst; clear H.
  exists e; destruct (published e); destruct Hr as [Hr|Hr];
    inversion Hr; subst; repeat split; auto; discriminate.
Qed.

Lemma published_derive_slug self :
  published (derive_slug self) = published self.
Proof. unfold derive_slug; now destruct (slug_unset self). Qed.

Lemma timestamp_derive_slug self :
  timestamp (derive_slug self) = timestamp self.
Proof. unfold derive_slug; now destruct (slug_unset self). Qed.

Lemma entry_id_derive_slug self : entry_id (derive_slug self) = entry_id self.
Proof. unfold derive_slug; now destruct (slug_unset self). Qed.

(** X8: a create that is answered by a redirect appended exactly one
    entry row: it carries the posted title and content, the posted
    publication flag, the time of the request and the slug derived
    from the title, which is the slug of the redirect; the redirect is
    to the detail page exactly when the entry is published; and the
    detail page of that slug, for a logged-in session, is this row. *)
Theorem create_round_trip now f db resp db' s :
  reachable db ->
  create now f db = (resp, db') ->
  resp = Redirect_detail s \/ resp = Redirect_edit s ->
  s = slugify (form_title f) /\
  exists r,
    entries db' = (entries db ++ [r])%list /\
    row_slug r = s /\
    row_title r = form_title f /\
    row_content r = form_content f /\
    row_published r = truthy (form_published f) /\
    row_timestamp r = now /\
    (resp = Redirect_detail s <-> row_published r = true) /\
    detail true s db' = Some r.
Proof.
  intros R H Hr.
  assert (R' : reachable db').
  { replace db' with (snd (handle (POST_create now f) db))
      by (simpl; now rewrite H).
    now constructor. }
  destruct (reachable_consistent _ R') as [_ Cs _ _ _ _ _].
  unfold create in H.
  destruct (redirect_saved _ _ _ _ _ _ H Hr) as (e & E & Es & Ep).
  remember (fill {| entry_id := None; title := ""; slug := None;
                    content := ""; published := false;
                    timestamp := now; tags := [] |} f) as self eqn:Eself.
  assert (Fs : effective_slug self = slugify (form_title f))
    by (subst self; reflexivity).
  assert (Ft : title self = form_title f) by (subst self; reflexivity).
  assert (Fc : content self = form_content f) by (subst self; reflexivity).
  assert (Fp : published self = truthy (form_published f))
    by (subst self; reflexivity).
  assert (Fn : timestamp self = now) by (subst self; reflexivity).
  assert (Fi : entry_id self = None) by (subst self; reflexivity).
  clear Eself H.
  apply Entry_save_entries in E as (k & db1 & M & He & Ee).
  apply Model_save_rows in M as (s0 & Hs0 & Hrows).
  rewrite slug_derive_slug, Fs in Hs0; injection Hs0 as <-.
  assert (Es' : slug e = Some (slugify (form_title f))).
  { subst e; simpl; now rewrite slug_derive_slug, Fs. }
  rewrite Es' in Es; injection Es as <-.
  assert (Pe : published e = truthy (form_published f)).
  { subst e; simpl; now rewrite published_derive_slug. }
  destruct Hrows as [(_ & Hk & _ & Erows) | (Hid & _)];
    [|rewrite entry_id_derive_slug, Fi in Hid; discriminate Hid].
  split; [reflexivity|].
  rewrite <- Ee in Erows.
  exists (row_of k (slugify (form_title f)) (derive_slug self)).
  split; [exact Erows|].
  simpl; rewrite title_derive_slug, content_derive_slug,
    published_derive_slug, timestamp_derive_slug.
  repeat split; auto.
  - intro X; apply Ep in X; congruence.
  - intro X; apply Ep; congruence.
  - unfold detail.
    change (slugify (form_title f))
      with (row_slug (row_of k (slugify (form_title f)) (derive_slug self)))
      at 1.
    apply find_slug_unique; [assumption|].
    rewrite Erows; apply in_or_app; right; now left.
Qed.

Lemma create_round_trip_witness :
  "notes" = slugify (form_title form_notes) /\
  exists r,
    entries db_notes = (entries db_hello ++ [r])%list /\
    row_slug r = "notes" /\
    row_title r = form_title form_notes /\
    row_content r = form_content form_notes /\
    row_published r = truthy (form_published form_notes) /\
    row_timestamp r = 7 /\
    (Redirect_edit "notes" = Redirect_detail "notes" <->
     row_published r = true) /\
    detail true "notes" db_notes = Some r.
Proof.
  apply (create_round_trip 7 form_notes db_hello (Redirect_edit "notes")
           db_notes "notes").
  - apply (reach_step (POST_create 0 form_hello)), reach_empty.
  - reflexivity.
  - right; reflexivity.
Defined.

(** X9: an edit of a non-empty slug that is answered by a redirect
    rewrote the row of that slug in place: the redirect names the same
    slug, the table has as many rows as before, and the detail page of
    the slug is now a row with the id and timestamp of the old one and
    the posted title, content and publication flag. *)
Theorem edit_round_trip s f db resp db' s' :
  reachable db ->
  truthy s = true ->
  edit s f db = (resp, db') ->
  resp = Redirect_detail s' \/ resp = Redirect_edit s' ->
  s' = s /\
  length (entries db') = length (entries db) /\
  exists r0 r,
    detail true s db = Some r0 /\
    detail true s db' = Some r /\
    row_id r = row_id r0 /\
    row_timestamp r = row_timestamp r0 /\
    row_title r = form_title f /\
    row_content r = form_content f /\
    row_published r = truthy (form_published f).
Proof.
  intros R Ts H Hr.
  assert (R' : reachable db').
  { replace db' with (snd (handle (POST_edit s f) db))
      by (simpl; now rewrite H).
    now constructor. }
  destruct (reachable_consistent _ R') as [_ Cs _ _ _ _ _].
  unfold edit in H.
  destruct (find _ (entries db)) as [r0|] eqn:F;
    [|destruct Hr as [->| ->]; discriminate H].
  pose proof (find_some _ _ F) as [H0 E0]; apply String.eqb_eq in E0.
  destruct (redirect_saved _ _ _ _ _ _ H Hr) as (e & E & Es & Ep).
  remember (fill (entry_of_row r0) f) as self eqn:Eself.
  assert (Fs : effective_slug self = s).
  { subst self; unfold effective_slug; simpl; now rewrite E0, Ts. }
  assert (Ft : title self = form_title f) by (subst self; reflexivity).
  assert (Fc : content self = form_content f) by (subst self; reflexivity).
  assert (Fp : published self = truthy (form_published f))
    by (subst self; reflexivity).
  assert (Fn : timestamp self = row_timestamp r0)
    by (subst self; reflexivity).
  assert (Fi : entry_id self = Some (row_id r0)) by (subst self; reflexivity).
  clear Eself H.
  apply Entry_save_entries in E as (k & db1 & M & He & Ee).
  apply Model_save_rows in M as (s0 & Hs0 & Hrows).
  rewrite slug_derive_slug, Fs in Hs0; injection Hs0 as <-.
  assert (Es' : slug e = Some s).
  { subst e; simpl; now rewrite slug_derive_slug, Fs. }
  rewrite Es' in Es; injection Es as <-.
  destruct Hrows as [(Hid & _) | (Hid & Erows)];
    [rewrite entry_id_derive_slug, Fi in Hid; discriminate Hid|].
  rewrite entry_id_derive_slug, Fi in Hid; injection Hid as <-.
  rewrite <- Ee in Erows.
  split; [reflexivity|]; split; [now rewrite Erows, length_map|].
  exists r0, (row_of (row_id r0) s (derive_slug self)).
  split; [exact F|].
  simpl; rewrite title_derive_slug, content_derive_slug,
    published_derive_slug, timestamp_derive_slug.
  repeat split; auto.
  unfold detail.
  change s with (row_slug (row_of (row_id r0) s (derive_slug self))) at 1.
  apply find_slug_unique; [assumption|].
  rewrite Erows; apply in_map_iff; exists r0; split; [|assumption].
  now rewrite Z.eqb_refl.
Qed.

Lemma edit_round_trip_witness :
  "hello-world" = "hello-world" /\
  length (entries (snd (edit "hello-world" form_edit_hello db_notes)))
  = length (entries db_notes) /\
  exists r0 r,
    detail true "hello-world" db_notes = Some r0 /\
    detail true "hello-world"
      (snd (edit "hello-world" form_edit_hello db_notes)) = Some r /\
    row_id r = row_id r0 /\
    row_timestamp r = row_timestamp r0 /\
    row_title r = form_title form_edit_hello /\
    row_content r = form_content form_edit_hello /\
    row_published r = truthy (form_published form_edit_hello).
Proof.
  apply (edit_round_trip "hello-world" form_edit_hello db_notes
           (Redirect_edit "hello-world")).
  - apply (reach_step (POST_create 7 form_notes)),
      (reach_step (POST_create 0 form_hello)), reach_empty.
  - reflexivity.
  - reflexivity.
  - right; reflexivity.
Defined.

(** An entry whose slug is empty gets a slug on its next edit: the
    slug of such an entry is not fixed. *)
Example edit_of_empty_slug :
  let db := snd (create 9 form_punctuation empty_db) in
  map row_slug (entries db) = [""] /\
  map row_slug (entries (snd (edit "" form_notes db))) = ["notes"].
Proof. split; reflexivity. Qed.

(** ** Listings *)

Lemma Sorted_weaken {A} (R R' : A -> A -> Prop) l :
  (forall a b, R a b -> R' a b) -> Sorted R l -> Sorted R' l.
Proof.
  intro H; induction 1 as [|a l _ IH Hd]; constructor; [assumption|].
  destruct Hd; constructor; auto.
Qed.

Lemma order_by_score_desc_generic l :
  order_by_score_desc l
  = order_by_desc (fun a b : hit => score a <? score b) l.
Proof.
  induction l as [|h r IH]; simpl; [reflexivity|].
  rewrite IH; generalize (order_by_desc (fun a b : hit => score a <? score b) r).
  intro l; induction l as [|y l' IHl]; simpl; [reflexivity|].
  now rewrite IHl.
Qed.

Lemma by_timestamp_listing l :
  Permutation (order_by_desc by_timestamp l) l /\
  Sorted (fun a b => row_timestamp b <= row_timestamp a)
    (order_by_desc by_timestamp l).
Proof.
  split; [apply order_by_desc_permutation|].
  apply (Sorted_weaken (not_below by_timestamp)).
  - unfold not_below, by_timestamp; intros a b H; now apply Z.ltb_ge.
  - apply order_by_desc_sorted, by_timestamp_asym.
Qed.

Section ListingFacts.

Variable fts_match : string -> FTSEntry -> bool.
Variable fts_rank : string -> FTSEntry -> Z.

Lemma search_lists_entries q db e :
  In e (result_entries (search fts_match fts_rank q db)) ->
  In e (entries db).
Proof.
  unfold search; destruct (search_words q) as [|w ws]; simpl.
  - intro H; now apply filter_In in H.
  - intro H; apply in_map_iff in H as ([[d r] sc] & <- & H); simpl.
    apply In_order_by_score_desc, in_flat_map in H as (d' & _ & H).
    apply in_map_iff in H as (r' & E & H); inversion E; subst.
    now apply filter_In in H.
Qed.

(** X11: the front page lists entries of the table that are published
    and no others, whatever the query; without a query it lists every
    published entry once, latest first, and the drafts page does the
    same with the unpublished ones. *)
Theorem index_lists_published q db :
  reachable db ->
  (forall r, In r (index fts_match fts_rank q db) ->
             In r (entries db) /\ row_published r = true) /\
  (q = None \/ q = Some "" ->
   Permutation (index fts_match fts_rank q db) (public db) /\
   Sorted (fun a b => row_timestamp b <= row_timestamp a)
     (index fts_match fts_rank q db)) /\
  Permutation (drafts_view db) (drafts db) /\
  Sorted (fun a b => row_timestamp b <= row_timestamp a) (drafts_view db).
Proof.
  intro R; pose proof (reachable_well_formed _ R) as W.
  assert (P : forall r, In r (order_by_desc by_timestamp (public db)) ->
                        In r (entries db) /\ row_published r = true).
  { intros r Hr.
    apply (Permutation_in _ (proj1 (by_timestamp_listing _))) in Hr.
    now apply filter_In in Hr. }
  repeat split.
  - destruct q as [s|]; simpl in *; [|now apply P].
    destruct (truthy s); [|now apply P].
    now apply search_lists_entries in H.
  - destruct q as [s|]; simpl in *; [|now apply P].
    destruct (truthy s); [|now apply P].
    now apply search_lists_published in H.
  - destruct H as [->| ->]; apply by_timestamp_listing.
  - destruct H as [->| ->]; apply by_timestamp_listing.
  - apply by_timestamp_listing.
  - apply by_timestamp_listing.
Qed.

(** The rows of [search] for a query with at least one word: joined
    rows in non-increasing order of score; a document, an entry and a
    score are listed together exactly when the document is the
    entry's, the entry is published, the engine matches the
    space-joined words against the document, and the score is the
    engine's rank of the document. *)
Lemma search_rows_ranked q db w ws :
  search_words q = w :: ws ->
  exists rows,
    search fts_match fts_rank q db = Ranked rows /\
    Sorted (fun a b => score b <= score a) rows /\
    forall d r sc,
      In (d, r, sc) rows <->
      In d (fts db) /\ In r (entries db) /\
      fts_entry_id d = row_id r /\ row_published r = true /\
      fts_match (String.concat " " (w :: ws)) d = true /\
      sc = fts_rank (String.concat " " (w :: ws)) d.
Proof.
  intro Hw; unfold search; rewrite Hw.
  eexists; split; [reflexivity|].
  rewrite order_by_score_desc_generic.
  set (lt := fun a b : hit => score a <? score b).
  split.
  - apply (Sorted_weaken (not_below lt)).
    + unfold not_below, lt; intros a b H; now apply Z.ltb_ge.
    + apply order_by_desc_sorted.
      unfold lt; intros a b H; apply Z.ltb_lt in H; apply Z.ltb_ge; lia.
  - intros d r sc.
    pose proof (order_by_desc_permutation lt) as P.
    split.
    + intro H; apply (Permutation_in _ (P _)) in H.
      apply in_flat_map in H as (d' & Hd & H).
      apply in_map_iff in H as (r' & E & H); inversion E; subst.
      apply filter_In in H as [Hr H].
      apply andb_prop in H as [H Hm]; apply andb_prop in H as [Hk Hp].
      apply Z.eqb_eq in Hk; auto 10.
    + intros (Hd & Hr & Hk & Hp & Hm & ->).
      apply (Permutation_in _ (Permutation_sym (P _))).
      apply in_flat_map; exists d; split; [assumption|].
      apply in_map_iff; exists r; split; [reflexivity|].
      apply filter_In; split; [assumption|].
      rewrite Hp, Hm, andb_true_r, andb_true_r; now apply Z.eqb_eq.
Qed.

End ListingFacts.

Lemma index_lists_published_witness :
  (forall r, In r (index substring_match flat_rank None db_notes) ->
             In r (entries db_notes) /\ row_published r = true) /\
  (@None string = None \/ @None string = Some "" ->
   Permutation (index substring_match flat_rank None db_notes)
     (public db_notes) /\
   Sorted (fun a b => row_timestamp b <= row_timestamp a)
     (index substring_match flat_rank None db_notes)) /\
  Permutation (drafts_view db_notes) (drafts db_notes) /\
  Sorted (fun a b => row_timestamp b <= row_timestamp a)
    (drafts_view db_notes).
Proof.
  apply (index_lists_published substring_match flat_rank None db_notes).
  apply (reach_step (POST_create 7 form_notes)),
    (reach_step (POST_create 0 form_hello)), reach_empty.
Defined.

(** X12: running the query of [Entry.search] for a query with at least
    one word.  When the engine accepts the space-joined words as a
    MATCH expression, the one outcome is a list of joined rows in
    non-increasing order of score, where a document, an entry and a
    score are listed together exactly when the document is the entry's,
    the entry is published, the engine matches the expression against
    the document, and the score is the engine's rank of the document.
    When the engine rejects the expression, the query raises
    OperationalError, and the only other outcome, possible when no
    entry is published, is no row at all. *)
Theorem search_ranked
    (fts_accepts : string -> bool)
    (fts_match : string -> FTSEntry -> bool)
    (fts_rank : string -> FTSEntry -> Z) q db w ws :
  search_words q = w :: ws ->
  (fts_accepts (match_expression q) = true ->
   exists rows,
     (forall o, runs_to fts_accepts fts_match fts_rank q db o <->
                o = Returned (Ranked rows)) /\
     Sorted (fun a b => score b <= score a) rows /\
     forall d r sc,
       In (d, r, sc) rows <->
       In d (fts db) /\ In r (entries db) /\
       fts_entry_id d = row_id r /\ row_published r = true /\
       fts_match (match_expression q) d = true /\
       sc = fts_rank (match_expression q) d) /\
  (fts_accepts (match_expression q) = false ->
   runs_to fts_accepts fts_match fts_rank q db OperationalError /\
   forall res,
     runs_to fts_accepts fts_match fts_rank q db (Returned res) ->
     res = Ranked [] /\ public db = []).
Proof.
  intro Hw.
  assert (Hne : search_words q <> []) by (rewrite Hw; discriminate).
  split; intro Ha.
  - destruct (search_rows_ranked fts_match fts_rank q db w ws Hw)
      as (rows & Es & Hs & Hm).
    exists rows; split; [|split; [exact Hs|]].
    + intro o; split.
      * intro H; inversion H; subst; try congruence.
      * intros ->; rewrite <- Es; now apply run_accepted.
    + unfold match_expression; rewrite Hw; exact Hm.
  - split; [now apply run_malformed|].
    intros res H; inversion H; subst; try congruence; auto.
Qed.

Lemma search_ranked_witness :
  (exists rows,
     (forall o, runs_to no_quote substring_match flat_rank " not  ready"
                  db_notes o <-> o = Returned (Ranked rows)) /\
     Sorted (fun a b => score b <= score a) rows /\
     forall d r sc,
       In (d, r, sc) rows <->
       In d (fts db_notes) /\ In r (entries db_notes) /\
       fts_entry_id d = row_id r /\ row_published r = true /\
       substring_match (match_expression " not  ready") d = true /\
       sc = flat_rank (match_expression " not  ready") d) /\
  (runs_to no_quote substring_match flat_rank quoted_query db_notes
     OperationalError /\
   forall res,
     runs_to no_quote substring_match flat_rank quoted_query db_notes
       (Returned res) ->
     res = Ranked [] /\ public db_notes = []).
Proof.
  split.
  - apply (search_ranked no_quote substring_match flat_rank " not  ready"
             db_notes "not" ["ready"]); reflexivity.
  - apply (search_ranked no_quote substring_match flat_rank quoted_query
             db_notes quoted_query []); reflexivity.
Defined.

(** X17: the tag cloud lists every tag row once, largest count first,
    and the tags page lists every tag row once, in descending order of
    token. *)
Theorem tag_pages_ordered db :
  Permutation (list_all_tags db) (tag_rows db) /\
  Sorted (fun a b => count b <= count a) (list_all_tags db) /\
  Permutation (tags_view db) (tag_rows db) /\
  Sorted (fun a b => String.leb (tag b) (tag a) = true) (tags_view db).
Proof.
  unfold list_all_tags, tags_view; repeat split.
  - apply order_by_desc_permutation.
  - apply (Sorted_weaken (not_below by_count)).
    + unfold not_below, by_count; intros a b H; now apply Z.ltb_ge.
    + apply order_by_desc_sorted, by_count_asym.
  - apply order_by_desc_permutation.
  - apply (Sorted_weaken (not_below by_token)).
    + unfold not_below, by_token, String.ltb, String.leb; intros a b H.
      rewrite String.compare_antisym.
      destruct (String.compare (tag a) (tag b)); try discriminate H;
        reflexivity.
    + apply order_by_desc_sorted, by_token_asym.
Qed.

(** ** The session gate *)

Section Gate.

Variable fts_match : string -> FTSEntry -> bool.
Variable fts_rank : string -> FTSEntry -> Z.

Lemma app_handle_logged_out rq db :
  opens_session rq = false ->
  snd (fst (app_handle fts_match fts_rank logged_out rq db)) = logged_out /\
  snd (app_handle fts_match fts_rank logged_out rq db) = db.
Proof.
  destruct rq; simpl; intro H; auto.
  rewrite <- negb_andb, H; simpl; auto.
Qed.

(** X13: a client whose session is not logged in, and who never posts
    the configured user name and password to the login page, leaves
    the database exactly as it found it and stays logged out, whatever
    requests it sends and in whatever order; with the right login
    first, a posted create reaches the view. *)
Theorem visitor_cannot_write rqs db :
  forallb (fun rq => negb (opens_session rq)) rqs = true ->
  app_run fts_match fts_rank logged_out rqs db = (logged_out, db) /\
  forall now f,
    app_run fts_match fts_rank logged_out
      (rqs ++ [Login_POST USERNAME PASSWORD; Create_POST now f]) db
    = ({| logged_in := true |}, snd (create now f db)).
Proof.
  induction rqs as [|rq r IH]; simpl; intro H.
  - split; [reflexivity|].
    intros now f; unfold login_required; simpl.
    destruct (create now f db); reflexivity.
  - apply andb_prop in H as [H1 H2]; apply negb_true_iff in H1.
    destruct (app_handle_logged_out rq db H1) as [Es Ed].
    destruct (app_handle fts_match fts_rank logged_out rq db)
      as [[resp s'] db']; simpl in *; subst.
    now apply IH.
Qed.

Lemma order_by_timestamp_published l r :
  In r (order_by_desc by_timestamp (filter (fun r => row_published r) l)) ->
  row_published r = true.
Proof.
  intro H; apply (Permutation_in _ (proj1 (by_timestamp_listing _))) in H.
  now apply filter_In in H.
Qed.

(** X14: to a session that is not logged in, no page other than the
    listing of a tag shows an unpublished entry: not the front page,
    with or without a query, not the page of an entry, and not the
    pages behind the login. *)
Theorem visitor_sees_no_draft rq db r :
  reachable db ->
  not_tag_listing rq = true ->
  In r (shown (fst (fst (app_handle fts_match fts_rank logged_out rq db))))
  -> row_published r = true.
Proof.
  intros R Hn; pose proof (reachable_well_formed _ R) as W.
  destruct rq as [| u p | | | q | now f | | s | s f | | t]; simpl;
    try contradiction; try discriminate Hn.
  - destruct (_ || _); simpl; contradiction.
  - unfold index; destruct q as [s|];
      [destruct (truthy s)|]; intro H.
    + now apply (search_lists_published fts_match fts_rank s db).
    + now apply (order_by_timestamp_published (entries db)).
    + now apply (order_by_timestamp_published (entries db)).
  - unfold detail; simpl.
    destruct (find _ _) as [x|] eqn:F; simpl; [|contradiction].
    intros [<-|[]]; apply find_some in F as [F _].
    now apply filter_In in F.
Qed.

End Gate.

Lemma visitor_cannot_write_witness :
  app_run substring_match flat_rank logged_out
    [Login_POST "root" "toor"; Create_POST 8 form_notes;
     Edit_POST "hello-world" form_edit_hello; Logout_POST; Drafts_GET]
    db_hello = (logged_out, db_hello) /\
  forall now f,
    app_run substring_match flat_rank logged_out
      ([Login_POST "root" "toor"; Create_POST 8 form_notes;
        Edit_POST "hello-world" form_edit_hello; Logout_POST; Drafts_GET]
       ++ [Login_POST USERNAME PASSWORD; Create_POST now f]) db_hello
    = ({| logged_in := true |}, snd (create now f db_hello)).
Proof.
  apply (visitor_cannot_write substring_match flat_rank).
  reflexivity.
Defined.

Lemma visitor_sees_no_draft_witness : row_published row_hello = true.
Proof.
  apply (visitor_sees_no_draft substring_match flat_rank
           (Index_GET None) db_notes row_hello).
  - apply (reach_step (POST_create 7 form_notes)),
      (reach_step (POST_create 0 form_hello)), reach_empty.
  - reflexivity.
  - vm_compute; left; reflexivity.
Defined.

(** ** What a save does to the counters *)

Lemma find_app {A} (p : A -> bool) l1 l2 :
  find p (l1 ++ l2)
  = match find p l1 with Some x => Some x | None => find p l2 end.
Proof.
  induction l1 as [|a l IH]; simpl; [reflexivity|].
  now destruct (p a).
Qed.

Lemma find_map_same {A} (p : A -> bool) (g : A -> A) l :
  (forall x, p (g x) = p x) -> find p (map g l) = option_map g (find p l).
Proof.
  intro H; induction l as [|a l IH]; simpl; [reflexivity|].
  rewrite H; now destruct (p a).
Qed.

Lemma find_token_none n (l : list Tag) :
  find (fun r => String.eqb (tag r) n) l = None <-> ~ In n (map tag l).
Proof.
  split.
  - intros F H; apply in_map_iff in H as (r & E & Hr).
    pose proof (find_none _ _ F r Hr) as N; simpl in N.
    rewrite E, String.eqb_refl in N; discriminate N.
  - intro H; destruct (find _ l) as [r|] eqn:F; [|reflexivity].
    apply find_some in F as [Hr E]; apply String.eqb_eq in E.
    exfalso; apply H; rewrite <- E; now apply in_map.
Qed.

(** Where the loop of [update_tags] ran to its end and created the
    token of a tag, no row had that token. *)
Lemma update_tags_loop_no_collision existing ts db db' :
  for_each (fun t => if mem (slugify t) existing then ret tt
                     else Tag_create (slugify t) 1) ts db = (Ok tt, db') ->
  forall t, In t ts -> mem (slugify t) existing = false ->
    ~ In (slugify t) (map tag (tag_rows db)).
Proof.
  revert db; induction ts as [|t0 r0 IH]; intros db H t Ht M;
    [contradiction|].
  simpl in H; apply bind_Ok in H as ([] & dbY & H0 & H).
  assert (Sub : forall n, In n (map tag (tag_rows db)) ->
                          In n (map tag (tag_rows dbY))).
  { destruct (mem (slugify t0) existing).
    - inversion H0; subst; auto.
    - unfold Tag_create in H0; destruct (existsb _ _); [discriminate|].
      inversion H0; subst; simpl; intros n Hn.
      rewrite map_app; apply in_or_app; now left. }
  destruct Ht as [<-|Ht].
  - rewrite M in H0; unfold Tag_create in H0.
    destruct (existsb _ _) eqn:X; [discriminate|].
    intro Hin; apply in_map_iff in Hin as (x & Ex & Hx).
    apply Bool.not_true_iff_false in X; apply X.
    apply existsb_exists; exists x; split; [assumption|].
    rewrite Ex; apply String.eqb_refl.
  - intro Hin; apply (IH dbY H t Ht M); auto.
Qed.

Lemma update_tags_counts self db db' :
  (forall t, In t (tag_rows db) -> slugify (tag t) = tag t) ->
  update_tags self db = (Ok tt, db') ->
  forall n, count_of n db' = count_after (tags self) n db.
Proof.
  intros Hnorm H n.
  destruct (update_tags_tokens _ _ _ H) as (new & ET & Fnew & _).
  pose proof (update_tags_Ok_present _ _ _ H) as Hpres.
  unfold update_tags in H; apply bind_Ok in H as ([] & dbi & Hi & Hl).
  unfold Tag_increment in Hi; inversion Hi; subst dbi; clear Hi.
  set (bump_if := fun r => if mem (tag r) (tags self) then bump r else r)
    in *.
  set (dbi := with_tag_rows db (map bump_if (tag_rows db))) in *.
  assert (Etok : map tag (tag_rows dbi) = map tag (tag_rows db)).
  { simpl; rewrite map_map; apply map_ext; intro r; unfold bump_if.
    now destruct (mem (tag r) (tags self)). }
  rewrite Forall_forall in Fnew.
  unfold count_after, count_of; rewrite ET, find_app.
  rewrite (find_map_same _ bump_if)
    by (intro x; unfold bump_if; now destruct (mem (tag x) (tags self))).
  destruct (mem n (map slugify (tags self))) eqn:Mn.
  - apply mem_In, in_map_iff in Mn as (t & En & Ht).
    destruct (find _ (tag_rows db)) as [r|] eqn:F; simpl.
    + apply find_some in F as [Hr Er]; apply String.eqb_eq in Er.
      assert (Mt : mem (slugify t) (Tag_select_in (tags self) dbi) = true).
      { destruct (mem (slugify t) _) eqn:X; [reflexivity|].
        exfalso.
        apply (update_tags_loop_no_collision _ _ _ _ Hl t Ht X).
        rewrite Etok, En, <- Er; now apply in_map. }
      apply mem_In, In_Tag_select_in in Mt as [Mt _].
      unfold bump_if; rewrite Er, <- En.
      apply mem_In in Mt; now rewrite Mt.
    + apply find_token_none in F.
      destruct (Hpres t Ht) as (r' & Hr' & Er').
      rewrite ET in Hr'; apply in_app_or in Hr' as [Hr'|Hr'].
      * exfalso; apply F; rewrite <- En, <- Er'.
        apply in_map_iff in Hr' as (x & <- & Hx).
        replace (tag (bump_if x)) with (tag x)
          by (unfold bump_if; now destruct (mem (tag x) (tags self))).
        now apply in_map.
      * destruct (find _ new) as [y|] eqn:Fy.
        -- apply find_some in Fy as [Hy _].
           simpl; now rewrite (proj1 (Fnew y Hy)).
        -- exfalso; apply find_token_none in Fy; apply Fy.
           rewrite <- En, <- Er'; now apply in_map.
  - assert (Nn : ~ In n (map slugify (tags self))).
    { intro X; apply mem_In in X; congruence. }
    assert (Fy : find (fun r => String.eqb (tag r) n) new = None).
    { apply find_token_none; intro X.
      apply in_map_iff in X as (y & Ey & Hy).
      destruct (Fnew y Hy) as (_ & t & Ht & Et).
      apply Nn; rewrite <- Ey, Et; now apply in_map. }
    rewrite Fy.
    destruct (find _ (tag_rows db)) as [r|] eqn:F; simpl; [|reflexivity].
    apply find_some in F as [Hr Er]; apply String.eqb_eq in Er.
    unfold bump_if.
    destruct (mem (tag r) (tags self)) eqn:X; [|reflexivity].
    exfalso; apply Nn; apply mem_In in X.
    rewrite <- Er, <- (Hnorm r Hr); now apply in_map.
Qed.

(** X15: a save that succeeds counts once for each token of its tag
    list: the count of a token that is the normalised form of one of
    the tags goes up by 1, or starts at 1 when the token had no row,
    however many tags of the list share that token; the count of every
    other token stays as it was. *)
Theorem save_counts_tokens self db e db' :
  reachable db ->
  Entry_save self db = (Ok e, db') ->
  forall n, count_of n db' = count_after (tags self) n db.
Proof.
  intros R H n.
  destruct (reachable_consistent _ R) as [_ _ _ _ _ _ Cg].
  apply Entry_save_anatomy in H
    as (k & db1 & db2 & db3 & _ & He & _ & _ & _ & _ & _ & T3 & H4).
  assert (Etags : tags e = tags self)
    by (subst e; apply tags_derive_slug).
  rewrite <- Etags.
  rewrite (update_tags_counts e db3 db'); auto.
  - unfold count_after, count_of; now rewrite T3.
  - intros t Ht; rewrite T3 in Ht; now apply Cg.
Qed.

Lemma save_counts_tokens_witness :
  count_of "x" db_notes = count_after (tags entry_notes) "x" db_hello /\
  count_of "announce" db_notes
  = count_after (tags entry_notes) "announce" db_hello.
Proof.
  split;
    apply (save_counts_tokens entry_notes db_hello
             (set_id (derive_slug entry_notes) 2) db_notes);
    try reflexivity;
    apply (reach_step (POST_create 0 form_hello)), reach_empty.
Defined.

(** X16: after a save that succeeds, the listing of the normalised
    form of each of its tags holds the saved entry. *)
Theorem tag_listing_round_trip self db e db' t :
  reachable db ->
  new_or_stored self db ->
  Entry_save self db = (Ok e, db') ->
  In t (tags self) ->
  exists r, In r (blogs_by_tag (slugify t) db') /\
            entry_id e = Some (row_id r).
Proof.
  intros R Hst H Ht.
  destruct (reachable_consistent _ R) as [Ci Cs _ _ _ _ _].
  apply Entry_save_anatomy in H
    as (k & db1 & db2 & db3 & H1 & He & Ee & _ & _ & _ & HA & _ & _).
  assert (Hst' : new_or_stored (derive_slug self) db).
  { unfold derive_slug; now destruct (slug_unset self). }
  destruct (Model_save_keys _ _ _ _ Ci Cs Hst' H1) as (_ & _ & Hk & _).
  rewrite <- Ee in Hk; apply in_map_iff in Hk as (r & Er & Hr).
  exists r; split; [|subst e; simpl; now rewrite Er].
  apply blogs_by_tag_lists_associated; [assumption|].
  destruct HA as (new & EA & Ek & En).
  assert (Hn : In (slugify t) (map bet_name new))
    by (rewrite En; now apply in_map).
  apply in_map_iff in Hn as (x & Ex & Hx).
  exists x; repeat split; [rewrite EA; apply in_or_app; now right | exact Ex|].
  assert (Hb : In (bet_entry x) (map bet_entry new)) by now apply in_map.
  rewrite Ek in Hb; apply in_map_iff in Hb as (? & <- & _).
  now rewrite Er.
Qed.

Lemma tag_listing_round_trip_witness :
  exists r, In r (blogs_by_tag (slugify "x") db_notes) /\
            entry_id (set_id (derive_slug entry_notes) 2) = Some (row_id r).
Proof.
  apply (tag_listing_round_trip entry_notes db_hello
           (set_id (derive_slug entry_notes) 2) db_notes "x").
  - apply (reach_step (POST_create 0 form_hello)), reach_empty.
  - left; reflexivity.
  - reflexivity.
  - left; reflexivity.
Defined.

(** ** When a save goes through and when it cannot *)

Lemma update_tags_loop_total existing ts db :
  NoDup ts ->
  (forall t, In t ts -> slugify t = t) ->
  (forall t, In t ts -> In t (map tag (tag_rows db)) -> In t existing) ->
  exists db',
    for_each (fun t => if mem (slugify t) existing then ret tt
                       else Tag_create (slugify t) 1) ts db = (Ok tt, db').
Proof.
  revert db; induction ts as [|t0 r0 IH]; intros db ND Hn He; simpl.
  - now exists db.
  - inversion ND as [|? ? Hnot ND']; subst.
    assert (Hn' : forall t, In t r0 -> slugify t = t)
      by (intros; apply Hn; now right).
    rewrite (Hn t0 (or_introl eq_refl)); unfold bind.
    destruct (mem t0 existing) eqn:M; simpl.
    + apply IH; auto; intros; apply He; auto; now right.
    + unfold Tag_create.
      destruct (existsb _ _) eqn:X.
      * exfalso; apply existsb_exists in X as (x & Hx & Ex).
        apply String.eqb_eq in Ex.
        assert (In t0 existing).
        { apply He; [now left | rewrite <- Ex; now apply in_map]. }
        apply mem_In in H; congruence.
      * apply IH; auto; simpl; intros t Ht Hin.
        rewrite map_app in Hin; apply in_app_or in Hin as [Hin|[<-|[]]].
        -- apply He; auto; now right.
        -- contradiction.
Qed.

Lemma update_tags_total self db :
  NoDup (tags self) ->
  (forall t, In t (tags self) -> slugify t = t) ->
  exists db', update_tags self db = (Ok tt, db').
Proof.
  intros ND Hn; unfold update_tags, bind, Tag_increment; simpl.
  apply update_tags_loop_total; auto.
  intros t Ht Hin; apply In_Tag_select_in; split; [assumption|].
  apply in_map_iff in Hin as (r & E & Hr); exists r; auto.
Qed.

(** X19: a posted create goes through whenever the title and the
    content are not empty, no entry has the slug the title gives, and
    the tags typed are distinct and in normal form: the answer is the
    redirect to that slug, to the detail page for a published entry
    and to the edit page for a draft. *)
Theorem create_succeeds now f db :
  truthy (form_title f) = true ->
  truthy (form_content f) = true ->
  (forall r, In r (entries db) -> row_slug r <> slugify (form_title f)) ->
  NoDup (split_comma_space (strip_blank (form_tags f))) ->
  (forall t, In t (split_comma_space (strip_blank (form_tags f))) ->
             slugify t = t) ->
  fst (create now f db)
  = if truthy (form_published f)
    then Redirect_detail (slugify (form_title f))
    else Redirect_edit (slugify (form_title f)).
Proof.
  intros Ht Hc Hfree ND Hn.
  unfold create, create_or_edit; simpl; rewrite Ht, Hc; simpl.
  set (self := fill _ f).
  assert (M : exists db1,
            Model_save (derive_slug self) db
            = (Ok (next_id (map row_id (entries db))), db1)).
  { unfold Model_save; simpl.
    destruct (existsb _ _) eqn:X; [|eauto].
    apply existsb_exists in X as (r & Hr & E).
    apply String.eqb_eq in E; now apply Hfree in Hr. }
  destruct M as (db1 & M).
  set (k := next_id (map row_id (entries db))) in *.
  destruct (for_each_tags_Ok k (tags (derive_slug self)) db1) as (db2 & S2).
  destruct (update_search_index_Ok k (set_id (derive_slug self) k) db2)
    as (db3 & S3).
  destruct (update_tags_total (set_id (derive_slug self) k) db3 ND Hn)
    as (db4 & S4).
  assert (E : Entry_save self db = (Ok (set_id (derive_slug self) k), db4)).
  { unfold Entry_save, bind; rewrite M.
    change (tags (set_id (derive_slug self) k))
      with (tags (derive_slug self)).
    now rewrite S2, S3, S4. }
  unfold atomic; rewrite E; simpl.
  now destruct (truthy (form_published f)).
Qed.

Lemma create_succeeds_witness :
  fst (create 7 form_notes db_hello)
  = if truthy (form_published form_notes)
    then Redirect_detail (slugify (form_title form_notes))
    else Redirect_edit (slugify (form_title form_notes)).
Proof.
  apply (create_succeeds 7 form_notes db_hello).
  - reflexivity.
  - reflexivity.
  - intros r [<-|[]]; vm_compute; discriminate.
  - vm_compute; repeat constructor; intros [].
  - intros t [<-|[]]; reflexivity.
Defined.

(** X18: a save cannot go through when one of its tags has a
    normalised form that is the token of a tag row and is not itself
    in the list as typed: [Entry.save] raises the integrity error, and
    the view answers that the title is in use and leaves the database
    as it was. *)
Theorem tag_collision_rejects_save self db t :
  In t (tags self) ->
  In (slugify t) (map tag (tag_rows db)) ->
  ~ In (slugify t) (tags self) ->
  fst (Entry_save self db) = Raise IntegrityError /\
  forall entry f,
    fill entry f = self ->
    truthy (title self) = true -> truthy (content self) = true ->
    create_or_edit entry f db
    = (Rendered (Some "Error: this title is already in use."), db).
Proof.
  intros Ht Hrow Hnot.
  assert (F : fst (Entry_save self db) = Raise IntegrityError).
  { destruct (Entry_save self db) as [[e|[]] db'] eqn:E; [|reflexivity].
    exfalso.
    apply Entry_save_anatomy in E
      as (k & db1 & db2 & db3 & _ & He & _ & _ & _ & _ & _ & T3 & H4).
    assert (Etags : tags e = tags self)
      by (subst e; apply tags_derive_slug).
    unfold update_tags in H4; apply bind_Ok in H4 as ([] & dbi & Hi & Hl).
    unfold Tag_increment in Hi; inversion Hi; subst dbi; clear Hi.
    rewrite Etags in Hl.
    apply (update_tags_loop_no_collision _ _ _ _ Hl t Ht).
    - destruct (mem (slugify t) _) eqn:X; [|reflexivity].
      apply mem_In, In_Tag_select_in in X as [X _]; contradiction.
    - simpl; rewrite map_map, T3.
      apply in_map_iff in Hrow as (r & Er & Hr).
      apply in_map_iff; exists r; split; [|assumption].
      now destruct (mem (tag r) (tags self)). }
  split; [assumption|].
  intros entry f Ef T C; unfold create_or_edit; rewrite Ef, T, C; simpl.
  unfold atomic.
  destruct (Entry_save self db) as [[e|[]] db']; simpl in F;
    [discriminate F | reflexivity].
Qed.

Lemma tag_collision_rejects_save_witness :
  fst (Entry_save entry_news db_announce) = Raise IntegrityError /\
  forall entry f,
    fill entry f = entry_news ->
    truthy (title entry_news) = true -> truthy (content entry_news) = true ->
    create_or_edit entry f db_announce
    = (Rendered (Some "Error: this title is already in use."), db_announce).
Proof.
  apply (tag_collision_rejects_save entry_news db_announce "Announce").
  - left; reflexivity.
  - vm_compute; left; reflexivity.
  - intros [H|[]]; discriminate H.
Defined.

(** ** Associations are never removed *)

Lemma blogs_by_tag_associated t db r :
  In r (blogs_by_tag t db) ->
  In r (entries db) /\
  exists x, In x (entry_tags db) /\ bet_name x = t /\
            bet_entry x = row_id r.
Proof.
  unfold blogs_by_tag; intro H; apply filter_In in H as [Hr H].
  split; [assumption|].
  apply existsb_exists in H as (i & Hi & E); apply Z.eqb_eq in E.
  apply in_map_iff in Hi as (x & Ex & Hx).
  apply filter_In in Hx as [Hx N]; apply String.eqb_eq in N.
  exists x; repeat split; auto; congruence.
Qed.

(** X20: an entry listed under a tag stays listed under it: after any
    posted create or edit, also one that drops the tag from the entry,
    the listing of the tag still holds a row with the entry's id. *)
Theorem tag_listing_never_shrinks rq db t r :
  reachable db ->
  In r (blogs_by_tag t db) ->
  exists r', In r' (blogs_by_tag t (snd (handle rq db))) /\
             row_id r' = row_id r.
Proof.
  intros R H; destruct (reachable_consistent _ R) as [Ci Cs _ _ _ _ _].
  pose proof (handle_answer rq db) as A.
  destruct (fst (handle rq db)); simpl in A;
    try (rewrite A; exists r; auto).
  - destruct A as (self & e & E & _ & Hst).
    apply blogs_by_tag_associated in H as (Hr & x & Hx & Hn & Hb).
    apply Entry_save_anatomy in E
      as (k & db1 & db2 & db3 & H1 & _ & Ee & _ & _ & _ & HA & _ & _).
    assert (Hst' : new_or_stored (derive_slug self) db).
    { unfold derive_slug; now destruct (slug_unset self). }
    destruct (Model_save_keys _ _ _ _ Ci Cs Hst' H1) as (_ & _ & _ & Hold).
    assert (Hi : In (row_id r) (map row_id (entries (snd (handle rq db))))).
    { rewrite Ee; apply Hold; now apply in_map. }
    apply in_map_iff in Hi as (r' & Er & Hr').
    exists r'; split; [|assumption].
    apply blogs_by_tag_lists_associated; [assumption|].
    destruct HA as (new & EA & _ & _).
    exists x; repeat split; auto; [|congruence].
    rewrite EA; apply in_or_app; now left.
  - destruct A as (self & e & E & _ & Hst).
    apply blogs_by_tag_associated in H as (Hr & x & Hx & Hn & Hb).
    apply Entry_save_anatomy in E
      as (k & db1 & db2 & db3 & H1 & _ & Ee & _ & _ & _ & HA & _ & _).
    assert (Hst' : new_or_stored (derive_slug self) db).
    { unfold derive_slug; now destruct (slug_unset self). }
    destruct (Model_save_keys _ _ _ _ Ci Cs Hst' H1) as (_ & _ & _ & Hold).
    assert (Hi : In (row_id r) (map row_id (entries (snd (handle rq db))))).
    { rewrite Ee; apply Hold; now apply in_map. }
    apply in_map_iff in Hi as (r' & Er & Hr').
    exists r'; split; [|assumption].
    apply blogs_by_tag_lists_associated; [assumption|].
    destruct HA as (new & EA & _ & _).
    exists x; repeat split; auto; [|congruence].
    rewrite EA; apply in_or_app; now left.
Qed.

Lemma tag_listing_never_shrinks_witness :
  exists r',
    In r' (blogs_by_tag "announce"
             (snd (handle (POST_edit "hello-world" form_notes) db_notes))) /\
    row_id r' = row_id row_hello.
Proof.
  apply (tag_listing_never_shrinks
           (POST_edit "hello-world" form_notes) db_notes "announce" row_hello).
  - apply (reach_step (POST_create 7 form_notes)),
      (reach_step (POST_create 0 form_hello)), reach_empty.
  - vm_compute; left; reflexivity.
Defined.
